(** * be-fsstubs.c: file-style operations on large objects

    A shallow embedding of [src/backend/libpq/be-fsstubs.c]: the table of
    large-object "FDs" ([cookies]), the private memory context ([fscxt]),
    the fmgr-callable stream operations, import/export, and the
    end-of-transaction hook [lo_commit].

    The large-object store ([inv_*]), the memory manager, [superuser] and
    the virtual file layer live in other files; they are taken as an
    interface ([Environment]) over an abstract world.  Every call through
    that interface is recorded in a call log, together with the memory
    context that was current when it was made. *)

From Stdlib Require Import ZArith Lia.
From stdpp Require Import base list strings gmap.

Local Open Scope Z_scope.

(** ** Constants of the file *)

Definition MAX_LOBJ_FDS : nat := 256.
Arguments MAX_LOBJ_FDS : simpl never.
Definition BUFSIZE : nat := 1024.
Definition FNAME_BUFSIZE : Z := 8192.

(** ** Data *)

(** An [Oid] is an unsigned integer; [InvalidOid] is zero. *)
Definition Oid := Z.
Definition InvalidOid : Oid := 0.

(** A non-null [LargeObjectDesc *], by its address.  A [NULL] pointer is
    [None] wherever the source tests for it. *)
Definition LargeObjectDesc := nat.

(** A [MemoryContext], by its address. *)
Definition MemoryContext := nat.

(** A virtual file descriptor ([File] is an [int]; negative on failure). *)
Definition File := Z.

(** The data bytes of a [text]/[bytea] value; [VARSIZE] is the length of
    the data plus the header. *)
Definition varlena := list Byte.byte.

Inductive OpenFlag := O_RDONLY | O_WRONLY | O_CREAT | O_TRUNC | PG_BINARY.

(** The functions of this file that raise errors. *)
Inductive LoFunction :=
  Flo_close | Flo_read | Flo_write | Flo_lseek | Flo_tell | Flo_import | Flo_export.

(** The messages given to [elog(ERROR, ...)], one constructor per kind
    of message, carrying the function named in it and the format's
    arguments ([lo_tell] spells its two messages "large object
    descriptor"). *)
Inductive ErrorMessage :=
| DescriptorOutOfRange (f : LoFunction) (fd : Z)
    (* "%s: large obj descriptor (%d) out of range" *)
| InvalidDescriptor (f : LoFunction) (fd : Z)
    (* "%s: invalid large obj descriptor (%d)" *)
| MustBeSuperuser (f : LoFunction)
    (* "You must have Postgres superuser privilege to use server-side %s()." *)
| CantOpenUnixFile (f : LoFunction) (fname : list Byte.byte)
    (* "%s: can't open unix file \"%s\": %m" *)
| CantCreateInvObject (fname : list Byte.byte)
    (* "lo_import: can't create inv object for \"%s\"" *)
| CantOpenInvObject (lobjId : Oid)
    (* "lo_export: can't open inv object %u" *)
| ErrorWhileReading (fname : list Byte.byte)
    (* "lo_import: error while reading \"%s\"" *)
| ErrorWhileWriting (fname : list Byte.byte).
    (* "lo_export: error while writing \"%s\"" *)

(** How a call ends: it returns, or [elog(ERROR)] unwinds it, or the
    model ran out of fuel inside one of the two copy loops. *)
Inductive outcome (A : Type) :=
| Returned (a : A)
| ElogERROR (msg : ErrorMessage)
| OutOfFuel.
Arguments Returned {A} a.
Arguments ElogERROR {A} msg.
Arguments OutOfFuel {A}.

(** Calls that leave this file, with their arguments and (where the
    caller looks at it) their result. *)
Inductive Call :=
| AllocSetContextCreate_call (parent : MemoryContext) (name : string) (ret : MemoryContext)
| MemoryContextDelete_call (cxt : MemoryContext)
| palloc_call (size : Z)
| inv_create_call (flags : Z) (ret : option LargeObjectDesc)
| inv_open_call (lobjId : Oid) (flags : Z) (ret : option LargeObjectDesc)
| inv_close_call (d : LargeObjectDesc)
| inv_drop_call (lobjId : Oid) (ret : Z)
| inv_seek_call (d : LargeObjectDesc) (offset whence : Z) (ret : Z)
| inv_tell_call (d : LargeObjectDesc) (ret : Z)
| inv_read_call (d : LargeObjectDesc) (nbytes : Z) (ret : Z)
| inv_write_call (d : LargeObjectDesc) (buf : list Byte.byte) (nbytes : Z) (ret : Z)
| inv_cleanindex_call (d : LargeObjectDesc)
| superuser_call (ret : bool)
| umask_call (mask : Z) (ret : Z)
| PathNameOpenFile_call (fname : list Byte.byte) (flags : list OpenFlag) (mode : Z) (ret : File)
| FileRead_call (fd : File) (amount : Z) (ret : Z)
| FileWrite_call (fd : File) (buf : list Byte.byte) (amount : Z) (ret : Z)
| FileClose_call (fd : File).

(** ** The collaborators

    [W] is the state of everything outside this file.  A function that
    fills a caller's buffer returns the bytes it stored there. *)
Class Environment (W : Type) := {
  (* compile-time configuration and header constants *)
  ALLOW_DANGEROUS_LO_FUNCTIONS : bool;
  VARHDRSZ : nat;
  INV_READ : Z;
  INV_WRITE : Z;
  TopMemoryContext : MemoryContext;
  (* utils/mmgr *)
  AllocSetContextCreate : MemoryContext -> string -> W -> MemoryContext * W;
  MemoryContextDelete : MemoryContext -> W -> W;
  palloc : Z -> W -> W;
  (* storage/large_object *)
  inv_create : Z -> W -> option LargeObjectDesc * W;
  inv_open : Oid -> Z -> W -> option LargeObjectDesc * W;
  inv_close : LargeObjectDesc -> W -> W;
  inv_drop : Oid -> W -> Z * W;
  inv_seek : LargeObjectDesc -> Z -> Z -> W -> Z * W;
  inv_tell : LargeObjectDesc -> W -> Z * W;
  inv_read : LargeObjectDesc -> Z -> W -> (Z * list Byte.byte) * W;
  inv_write : LargeObjectDesc -> list Byte.byte -> Z -> W -> Z * W;
  inv_cleanindex : LargeObjectDesc -> W -> W;
  (* RelationGetRelid(desc->heap_r) *)
  heap_relid : LargeObjectDesc -> W -> Oid;
  (* miscadmin, libc, storage/file *)
  superuser : W -> bool;
  umask : Z -> W -> Z * W;
  PathNameOpenFile : list Byte.byte -> list OpenFlag -> Z -> W -> File * W;
  FileRead : File -> Z -> W -> (Z * list Byte.byte) * W;
  FileWrite : File -> list Byte.byte -> Z -> W -> Z * W;
  FileClose : File -> W -> W;
}.

(** ** The state of a backend *)

Record Backend (W : Type) := mkBackend {
  cookies : list (option LargeObjectDesc);   (* static LargeObjectDesc *cookies[MAX_LOBJ_FDS] *)
  fscxt : option MemoryContext;              (* static MemoryContext fscxt = NULL *)
  CurrentMemoryContext : option MemoryContext;
  world : W;
  calls : list (option MemoryContext * Call);
}.
Arguments mkBackend {W}.
Arguments cookies {W}.
Arguments fscxt {W}.
Arguments CurrentMemoryContext {W}.
Arguments world {W}.
Arguments calls {W}.

(** ** A state-and-error monad for the C functions *)

Definition LO (W A : Type) : Type := Backend W -> outcome A * Backend W.

Definition ret {W A} (a : A) : LO W A := fun s => (Returned a, s).

Definition bind {W A B} (m : LO W A) (k : A -> LO W B) : LO W B :=
  fun s =>
    match m s with
    | (Returned a, s') => k a s'
    | (ElogERROR msg, s') => (ElogERROR msg, s')
    | (OutOfFuel, s') => (OutOfFuel, s')
    end.

Notation "x <- m ;; k" := (bind m (fun x => k))
  (at level 100, m at next level, right associativity).
Notation "m ;;; k" := (bind m (fun _ => k))
  (at level 100, right associativity).

(** [elog(ERROR, ...)] does not return to its caller. *)
Definition elog_ERROR {W A} (msg : ErrorMessage) : LO W A :=
  fun s => (ElogERROR msg, s).

Definition out_of_fuel {W A} : LO W A := fun s => (OutOfFuel, s).

Definition record {W} (c : Call) (s : Backend W) (w : W) : Backend W :=
  mkBackend (cookies s) (fscxt s) (CurrentMemoryContext s) w
            (calls s ++ [(CurrentMemoryContext s, c)]).

(** A call into the environment that yields a value. *)
Definition call {W A} (f : W -> A * W) (ev : A -> Call) : LO W A :=
  fun s => let '(a, w) := f (world s) in (Returned a, record (ev a) s w).

(** A call into the environment for its effect only. *)
Definition call_ {W} (f : W -> W) (ev : Call) : LO W unit :=
  fun s => (Returned tt, record ev s (f (world s))).

(** A read of the environment. *)
Definition ask {W A} (f : W -> A) : LO W A := fun s => (Returned (f (world s)), s).

Definition get_fscxt {W} : LO W (option MemoryContext) := fun s => (Returned (fscxt s), s).

Definition set_fscxt {W} (c : option MemoryContext) : LO W unit :=
  fun s => (Returned tt, mkBackend (cookies s) c (CurrentMemoryContext s) (world s) (calls s)).

(** [MemoryContextSwitchTo]: makes [cxt] current, returns the old one.
    The argument is a pointer and may be [NULL]. *)
Definition MemoryContextSwitchTo {W} (cxt : option MemoryContext)
    : LO W (option MemoryContext) :=
  fun s => (Returned (CurrentMemoryContext s),
            mkBackend (cookies s) (fscxt s) cxt (world s) (calls s)).

(** [cookies[i]]: [None] is a [NULL] entry.  The array has
    [MAX_LOBJ_FDS] entries; every use below is at an index under that
    bound, and [wf_table] says the list has that length. *)
Definition cookie_at (tbl : list (option LargeObjectDesc)) (i : nat) : option LargeObjectDesc :=
  match tbl !! i with
  | Some c => c
  | None => None
  end.

Definition get_cookie {W} (i : nat) : LO W (option LargeObjectDesc) :=
  fun s => (Returned (cookie_at (cookies s) i), s).

Definition set_cookie {W} (i : nat) (c : option LargeObjectDesc) : LO W unit :=
  fun s => (Returned tt,
            mkBackend (<[i := c]> (cookies s)) (fscxt s) (CurrentMemoryContext s)
                      (world s) (calls s)).

(** ** Support routines *)

(** [for (i = 0; i < MAX_LOBJ_FDS; i++) if (cookies[i] == NULL) { cookies[i] = lobjCookie; return i; }]
    with [n] iterations left, at index [i]. *)
Fixpoint newLOfd_from (n i : nat) (lobjCookie : LargeObjectDesc)
    (tbl : list (option LargeObjectDesc)) : list (option LargeObjectDesc) * Z :=
  match n with
  | O => (tbl, -1)
  | S n' =>
      match cookie_at tbl i with
      | None => (<[i := Some lobjCookie]> tbl, Z.of_nat i)
      | Some _ => newLOfd_from n' (S i) lobjCookie tbl
      end
  end.

Definition newLOfd_table (lobjCookie : LargeObjectDesc) (tbl : list (option LargeObjectDesc))
    : list (option LargeObjectDesc) * Z :=
  newLOfd_from MAX_LOBJ_FDS 0 lobjCookie tbl.
Arguments newLOfd_table : simpl never.

Definition newLOfd {W} (lobjCookie : LargeObjectDesc) : LO W Z :=
  fun s =>
    let '(tbl, fd) := newLOfd_table lobjCookie (cookies s) in
    (Returned fd, mkBackend tbl (fscxt s) (CurrentMemoryContext s) (world s) (calls s)).

Definition deleteLOfd_table (fd : nat) (tbl : list (option LargeObjectDesc))
    : list (option LargeObjectDesc) :=
  <[fd := None]> tbl.

Definition deleteLOfd {W} (fd : nat) : LO W unit :=
  fun s =>
    (Returned tt,
     mkBackend (deleteLOfd_table fd (cookies s)) (fscxt s) (CurrentMemoryContext s)
               (world s) (calls s)).

(** ** File interfaces for large objects *)

Section Operations.
Context {W : Type} `{Environment W}.

(** [if (fscxt == NULL) fscxt = AllocSetContextCreate(TopMemoryContext, "Filesystem", ...)] *)
Definition fscxt_create : LO W unit :=
  c <- get_fscxt ;;
  match c with
  | Some _ => ret tt
  | None =>
      cxt <- call (AllocSetContextCreate TopMemoryContext "Filesystem")
                  (AllocSetContextCreate_call TopMemoryContext "Filesystem") ;;
      set_fscxt (Some cxt)
  end.

(** The [#if FSDB] notices are compiled out ([FSDB] is not defined). *)
Definition lo_open (lobjId : Oid) (mode : Z) : LO W Z :=
  fscxt_create ;;;
  cxt <- get_fscxt ;;
  currentContext <- MemoryContextSwitchTo cxt ;;
  lobjDesc <- call (inv_open lobjId mode) (inv_open_call lobjId mode) ;;
  match lobjDesc with
  | None =>                       (* lookup failed *)
      MemoryContextSwitchTo currentContext ;;;
      ret (-1)
  | Some lobjDesc =>
      fd <- newLOfd lobjDesc ;;
      MemoryContextSwitchTo currentContext ;;;
      ret fd
  end.

(** The two checks every descriptor-taking function starts with:
    [if (fd < 0 || fd >= MAX_LOBJ_FDS) elog(ERROR, ...)] and
    [if (cookies[fd] == NULL) elog(ERROR, ...)].  The [return -2] and
    [return -3] that follow each [elog(ERROR)] are not reached. *)
Definition check_fd (f : LoFunction) (fd : Z) : LO W LargeObjectDesc :=
  if (fd <? 0) || (fd >=? Z.of_nat MAX_LOBJ_FDS) then
    elog_ERROR (DescriptorOutOfRange f fd)
  else
    c <- get_cookie (Z.to_nat fd) ;;
    match c with
    | None => elog_ERROR (InvalidDescriptor f fd)
    | Some d => ret d
    end.

(** [Assert(fscxt != NULL)] is compiled out without assert checking;
    [wf_fscxt] below shows it cannot fail on a well-formed state. *)
Definition lo_close (fd : Z) : LO W Z :=
  d <- check_fd Flo_close fd ;;
  cxt <- get_fscxt ;;
  currentContext <- MemoryContextSwitchTo cxt ;;
  call_ (inv_close d) (inv_close_call d) ;;;
  MemoryContextSwitchTo currentContext ;;;
  deleteLOfd (Z.to_nat fd) ;;;
  ret 0.

(** Returns the status and the bytes [inv_read] stored in [buf]. *)
Definition lo_read (fd : Z) (len : Z) : LO W (Z * list Byte.byte) :=
  d <- check_fd Flo_read fd ;;
  cxt <- get_fscxt ;;
  currentContext <- MemoryContextSwitchTo cxt ;;
  r <- call (inv_read d len) (fun r => inv_read_call d len (fst r)) ;;
  MemoryContextSwitchTo currentContext ;;;
  ret r.

Definition lo_write (fd : Z) (buf : list Byte.byte) (len : Z) : LO W Z :=
  d <- check_fd Flo_write fd ;;
  cxt <- get_fscxt ;;
  currentContext <- MemoryContextSwitchTo cxt ;;
  status <- call (inv_write d buf len) (inv_write_call d buf len) ;;
  MemoryContextSwitchTo currentContext ;;;
  ret status.

Definition lo_lseek (fd offset whence : Z) : LO W Z :=
  d <- check_fd Flo_lseek fd ;;
  cxt <- get_fscxt ;;
  currentContext <- MemoryContextSwitchTo cxt ;;
  status <- call (inv_seek d offset whence) (inv_seek_call d offset whence) ;;
  MemoryContextSwitchTo currentContext ;;;
  ret status.

Definition lo_creat (mode : Z) : LO W Oid :=
  fscxt_create ;;;
  cxt <- get_fscxt ;;
  currentContext <- MemoryContextSwitchTo cxt ;;
  lobjDesc <- call (inv_create mode) (inv_create_call mode) ;;
  match lobjDesc with
  | None =>
      MemoryContextSwitchTo currentContext ;;;
      ret InvalidOid
  | Some lobjDesc =>
      lobjId <- ask (heap_relid lobjDesc) ;;
      call_ (inv_close lobjDesc) (inv_close_call lobjDesc) ;;;
      MemoryContextSwitchTo currentContext ;;;
      ret lobjId
  end.

(** No context switch around [inv_tell]. *)
Definition lo_tell (fd : Z) : LO W Z :=
  d <- check_fd Flo_tell fd ;;
  call (inv_tell d) (inv_tell_call d).

Definition lo_unlink (lobjId : Oid) : LO W Z :=
  call (inv_drop lobjId) (inv_drop_call lobjId).

(** *** Read/write using bytea *)

(** The length [loread] goes on with: [if (len < 0) len = 0]. *)
Definition loread_len (len : Z) : Z := if len <? 0 then 0 else len.

(** The result is the pair of [VARATT_SIZEP(retval)] and the data
    bytes [lo_read] stored after the header. *)
Definition loread (fd : Z) (len : Z) : LO W (Z * list Byte.byte) :=
  let len := loread_len len in
  call_ (palloc (Z.of_nat VARHDRSZ + len)) (palloc_call (Z.of_nat VARHDRSZ + len)) ;;;
  r <- lo_read fd len ;;
  let '(totalread, data) := r in
  ret (totalread + Z.of_nat VARHDRSZ, data).

Definition VARSIZE (v : varlena) : Z := Z.of_nat VARHDRSZ + Z.of_nat (length v).

Definition lowrite (fd : Z) (wbuf : varlena) : LO W Z :=
  let bytestowrite := VARSIZE wbuf - Z.of_nat VARHDRSZ in
  lo_write fd wbuf bytestowrite.

(** *** Import/export of large objects *)

(** The string a [char *] argument denotes: the bytes before the
    first NUL. *)
Fixpoint c_string (buf : list Byte.byte) : list Byte.byte :=
  match buf with
  | [] => []
  | b :: rest => if Byte.eqb b Byte.x00 then [] else b :: c_string rest
  end.

(** [nbytes = VARSIZE(filename) - VARHDRSZ;
     if (nbytes >= FNAME_BUFSIZE) nbytes = FNAME_BUFSIZE-1;] *)
Definition fname_nbytes (filename : varlena) : Z :=
  let nbytes := VARSIZE filename - Z.of_nat VARHDRSZ in
  if nbytes >=? FNAME_BUFSIZE then FNAME_BUFSIZE - 1 else nbytes.

(** [memcpy(fnamebuf, VARDATA(filename), nbytes); fnamebuf[nbytes] = '\0';]
    the initialised part of [fnamebuf]. *)
Definition fill_fnamebuf (filename : varlena) : list Byte.byte :=
  take (Z.to_nat (fname_nbytes filename)) filename ++ [Byte.x00].

(** [#ifndef ALLOW_DANGEROUS_LO_FUNCTIONS  if (!superuser()) elog(ERROR, ...)] *)
Definition superuser_gate (f : LoFunction) : LO W unit :=
  if ALLOW_DANGEROUS_LO_FUNCTIONS then ret tt
  else
    su <- call (fun w => (superuser w, w)) superuser_call ;;
    if su then ret tt else elog_ERROR (MustBeSuperuser f).

(** [while ((nbytes = FileRead(fd, buf, BUFSIZE)) > 0) { tmp = inv_write(lobj, buf, nbytes); ... }] *)
Fixpoint lo_import_copy (fuel : nat) (fd : File) (lobj : LargeObjectDesc)
    (fnamebuf : list Byte.byte) : LO W unit :=
  match fuel with
  | O => out_of_fuel
  | S fuel' =>
      r <- call (FileRead fd (Z.of_nat BUFSIZE))
                (fun r => FileRead_call fd (Z.of_nat BUFSIZE) (fst r)) ;;
      let '(nbytes, buf) := r in
      if nbytes >? 0 then
        tmp <- call (inv_write lobj buf nbytes) (inv_write_call lobj buf nbytes) ;;
        if tmp <? nbytes then elog_ERROR (ErrorWhileReading (c_string fnamebuf))
        else lo_import_copy fuel' fd lobj fnamebuf
      else ret tt
  end.

Definition mode_0666 : Z := 6 * 64 + 6 * 8 + 6.
Definition mask_0022 : Z := 2 * 8 + 2.

Definition lo_import (fuel : nat) (filename : varlena) : LO W Oid :=
  superuser_gate Flo_import ;;;
  (* open the file to be read in *)
  let fnamebuf := fill_fnamebuf filename in
  fd <- call (PathNameOpenFile (c_string fnamebuf) [O_RDONLY; PG_BINARY] mode_0666)
             (PathNameOpenFile_call (c_string fnamebuf) [O_RDONLY; PG_BINARY] mode_0666) ;;
  if fd <? 0 then elog_ERROR (CantOpenUnixFile Flo_import (c_string fnamebuf))
  else
    (* create an inversion "object" *)
    lobj <- call (inv_create (Z.lor INV_READ INV_WRITE))
                 (inv_create_call (Z.lor INV_READ INV_WRITE)) ;;
    match lobj with
    | None => elog_ERROR (CantCreateInvObject (c_string fnamebuf))
    | Some lobj =>
        lobjOid <- ask (heap_relid lobj) ;;
        lo_import_copy fuel fd lobj fnamebuf ;;;
        call_ (FileClose fd) (FileClose_call fd) ;;;
        call_ (inv_close lobj) (inv_close_call lobj) ;;;
        ret lobjOid
    end.

(** [while ((nbytes = inv_read(lobj, buf, BUFSIZE)) > 0) { tmp = FileWrite(fd, buf, nbytes); ... }] *)
Fixpoint lo_export_copy (fuel : nat) (fd : File) (lobj : LargeObjectDesc)
    (fnamebuf : list Byte.byte) : LO W unit :=
  match fuel with
  | O => out_of_fuel
  | S fuel' =>
      r <- call (inv_read lobj (Z.of_nat BUFSIZE))
                (fun r => inv_read_call lobj (Z.of_nat BUFSIZE) (fst r)) ;;
      let '(nbytes, buf) := r in
      if nbytes >? 0 then
        tmp <- call (FileWrite fd buf nbytes) (FileWrite_call fd buf nbytes) ;;
        if tmp <? nbytes then elog_ERROR (ErrorWhileWriting (c_string fnamebuf))
        else lo_export_copy fuel' fd lobj fnamebuf
      else ret tt
  end.

Definition lo_export (fuel : nat) (lobjId : Oid) (filename : varlena) : LO W Z :=
  superuser_gate Flo_export ;;;
  (* open the inversion "object" *)
  lobj <- call (inv_open lobjId INV_READ) (inv_open_call lobjId INV_READ) ;;
  match lobj with
  | None => elog_ERROR (CantOpenInvObject lobjId)
  | Some lobj =>
      (* open the file to be written to *)
      let fnamebuf := fill_fnamebuf filename in
      oumask <- call (umask mask_0022) (umask_call mask_0022) ;;
      fd <- call (PathNameOpenFile (c_string fnamebuf)
                    [O_CREAT; O_WRONLY; O_TRUNC; PG_BINARY] mode_0666)
                 (PathNameOpenFile_call (c_string fnamebuf)
                    [O_CREAT; O_WRONLY; O_TRUNC; PG_BINARY] mode_0666) ;;
      call (umask oumask) (umask_call oumask) ;;;
      if fd <? 0 then elog_ERROR (CantOpenUnixFile Flo_export (c_string fnamebuf))
      else
        lo_export_copy fuel fd lobj fnamebuf ;;;
        call_ (inv_close lobj) (inv_close_call lobj) ;;;
        call_ (FileClose fd) (FileClose_call fd) ;;;
        ret 1
  end.

(** *** lo_commit: prepares large objects for transaction commit *)

(** [for (i = 0; i < MAX_LOBJ_FDS; i++) if (cookies[i] != NULL) { ... }]
    with [n] iterations left, at index [i]. *)
Fixpoint lo_commit_loop (n i : nat) (isCommit : bool) : LO W unit :=
  match n with
  | O => ret tt
  | S n' =>
      c <- get_cookie i ;;
      match c with
      | Some d =>
          (if isCommit then call_ (inv_cleanindex d) (inv_cleanindex_call d)
           else ret tt) ;;;
          set_cookie i None
      | None => ret tt
      end ;;;
      lo_commit_loop n' (S i) isCommit
  end.

Definition lo_commit (isCommit : bool) : LO W unit :=
  c <- get_fscxt ;;
  match c with
  | None => ret tt               (* no LO operations in this xact *)
  | Some cxt =>
      currentContext <- MemoryContextSwitchTo (Some cxt) ;;
      lo_commit_loop MAX_LOBJ_FDS 0 isCommit ;;;
      MemoryContextSwitchTo currentContext ;;;
      (* Release the LO memory context to prevent permanent memory leaks. *)
      call_ (MemoryContextDelete cxt) (MemoryContextDelete_call cxt) ;;;
      set_fscxt None
  end.
End Operations.

(** ** Well-formed states *)

(** The array has [MAX_LOBJ_FDS] entries. *)
Definition wf_table (tbl : list (option LargeObjectDesc)) : Prop :=
  length tbl = MAX_LOBJ_FDS.

(** The array has its size, and descriptors exist only while the
    private context does (the [Assert(fscxt != NULL)] of the source). *)
Definition wf_backend {W} (s : Backend W) : Prop :=
  wf_table (cookies s) /\
  (fscxt s = None -> cookies s = replicate MAX_LOBJ_FDS None).

(** The state a backend starts a transaction in: the zero-initialised
    statics of the file. *)
Definition initial {W} (cur : option MemoryContext) (w : W) : Backend W :=
  mkBackend (replicate MAX_LOBJ_FDS None) None cur w [].

(** Slot [fd] holds a descriptor: [fd] is a valid handle. *)
Definition valid_fd {W} (s : Backend W) (fd : Z) : Prop :=
  0 <= fd < Z.of_nat MAX_LOBJ_FDS /\ cookie_at (cookies s) (Z.to_nat fd) <> None.

(** Every slot is occupied. *)
Definition table_full (tbl : list (option LargeObjectDesc)) : Prop :=
  forall i, (i < MAX_LOBJ_FDS)%nat -> cookie_at tbl i <> None.

Definition is_occupied (c : option LargeObjectDesc) : bool :=
  match c with Some _ => true | None => false end.

(** The descriptors held by the table, in slot order. *)
Definition occupied (tbl : list (option LargeObjectDesc)) : list LargeObjectDesc :=
  omap id tbl.

(** The state [lo_open] and [lo_creat] go on with once the private
    context exists. *)
Definition after_fscxt_create {W} `{Environment W} (s : Backend W) : Backend W :=
  (fscxt_create s).2.

(** The calls made between state [s] and a later state [s']. *)
Definition calls_since {W} (s s' : Backend W) : list (option MemoryContext * Call) :=
  drop (length (calls s)) (calls s').




(** The descriptors [inv_cleanindex] was called on, in call order. *)
Definition cleanindex_of (c : option MemoryContext * Call) : option LargeObjectDesc :=
  match c.2 with
  | inv_cleanindex_call d => Some d
  | _ => None
  end.

Definition cleaned (log : list (option MemoryContext * Call)) : list LargeObjectDesc :=
  omap cleanindex_of log.

(** The descriptors [inv_close] was called on. *)
Definition close_of (c : option MemoryContext * Call) : option LargeObjectDesc :=
  match c.2 with
  | inv_close_call d => Some d
  | _ => None
  end.

Definition closed (log : list (option MemoryContext * Call)) : list LargeObjectDesc :=
  omap close_of log.



(** [l] cut into pieces of [n] elements, the last one holding what is
    left; [fuel] bounds the number of pieces. *)
Fixpoint chunks_upto {A} (fuel n : nat) (l : list A) : list (list A) :=
  match fuel with
  | O => []
  | S fuel' =>
      match l with
      | [] => []
      | _ :: _ => take n l :: chunks_upto fuel' n (drop n l)
      end
  end.

Definition chunks {A} (n : nat) (l : list A) : list (list A) :=
  chunks_upto (length l) n l.

(** ** An in-memory environment

    Modelled from the spec: the store, file and memory-manager
    collaborators of section 6, whose code is outside this file.  Large
    objects and files are byte strings, open descriptors carry a
    position, reads return what is left up to the requested length,
    writes store every byte they are given.  It serves to run the
    functions above on concrete inputs. *)
Module Sim.

Record World := mkWorld {
  is_superuser : bool;
  cur_umask : Z;
  files : list (list Byte.byte * list Byte.byte);   (* path, contents *)
  vfds : gmap Z (list Byte.byte * nat);             (* File -> path, position *)
  objects : gmap Z (list Byte.byte);                (* Oid -> contents *)
  descs : gmap nat (Z * nat);                       (* descriptor -> Oid, position *)
  next : nat;                                       (* next fresh address, Oid or File *)
}.

Fixpoint bytes_eqb (a b : list Byte.byte) : bool :=
  match a, b with
  | [], [] => true
  | x :: a', y :: b' => Byte.eqb x y && bytes_eqb a' b'
  | _, _ => false
  end.

Fixpoint file_get (path : list Byte.byte) (fs : list (list Byte.byte * list Byte.byte))
    : option (list Byte.byte) :=
  match fs with
  | [] => None
  | (p, c) :: fs' => if bytes_eqb p path then Some c else file_get path fs'
  end.

Fixpoint file_put (path content : list Byte.byte)
    (fs : list (list Byte.byte * list Byte.byte)) : list (list Byte.byte * list Byte.byte) :=
  match fs with
  | [] => [(path, content)]
  | (p, c) :: fs' =>
      if bytes_eqb p path then (p, content) :: fs' else (p, c) :: file_put path content fs'
  end.

(** [data] stored over [content] at position [pos]; a gap is filled
    with zero bytes. *)
Definition store_at (pos : nat) (data content : list Byte.byte) : list Byte.byte :=
  take pos (content ++ replicate (pos - length content) Byte.x00)
    ++ data ++ drop (pos + length data) content.

Definition has_flag (f : OpenFlag) (flags : list OpenFlag) : bool :=
  existsb (fun g => match f, g with
                    | O_RDONLY, O_RDONLY | O_WRONLY, O_WRONLY | O_CREAT, O_CREAT
                    | O_TRUNC, O_TRUNC | PG_BINARY, PG_BINARY => true
                    | _, _ => false
                    end) flags.

Definition set_files fs (w : World) : World :=
  mkWorld (is_superuser w) (cur_umask w) fs (vfds w) (objects w) (descs w) (next w).
Definition set_vfds v (w : World) : World :=
  mkWorld (is_superuser w) (cur_umask w) (files w) v (objects w) (descs w) (next w).
Definition set_objects o (w : World) : World :=
  mkWorld (is_superuser w) (cur_umask w) (files w) (vfds w) o (descs w) (next w).
Definition set_descs d (w : World) : World :=
  mkWorld (is_superuser w) (cur_umask w) (files w) (vfds w) (objects w) d (next w).
Definition bump (w : World) : World :=
  mkWorld (is_superuser w) (cur_umask w) (files w) (vfds w) (objects w) (descs w) (S (next w)).

Definition sim_inv_create (flags : Z) (w : World) : option LargeObjectDesc * World :=
  let d := next w in
  let oid := Z.of_nat (S (next w)) in
  (Some d, bump (bump (set_descs (<[d := (oid, O)]> (descs w))
                         (set_objects (<[oid := []]> (objects w)) w)))).

Definition sim_inv_open (lobjId : Oid) (flags : Z) (w : World)
    : option LargeObjectDesc * World :=
  match objects w !! lobjId with
  | None => (None, w)
  | Some _ =>
      let d := next w in
      (Some d, bump (set_descs (<[d := (lobjId, O)]> (descs w)) w))
  end.

Definition sim_inv_close (d : LargeObjectDesc) (w : World) : World :=
  set_descs (delete d (descs w)) w.

Definition sim_inv_drop (lobjId : Oid) (w : World) : Z * World :=
  (1, set_objects (delete lobjId (objects w)) w).

Definition object_of (d : LargeObjectDesc) (w : World) : option (Z * nat * list Byte.byte) :=
  match descs w !! d with
  | None => None
  | Some (oid, pos) =>
      match objects w !! oid with
      | None => None
      | Some content => Some (oid, pos, content)
      end
  end.

Definition sim_inv_seek (d : LargeObjectDesc) (offset whence : Z) (w : World) : Z * World :=
  match object_of d w with
  | None => (-1, w)
  | Some (oid, pos, content) =>
      let target :=
        if whence =? 0 then offset
        else if whence =? 1 then Z.of_nat pos + offset
        else Z.of_nat (length content) + offset in
      if target <? 0 then (-1, w)
      else (target, set_descs (<[d := (oid, Z.to_nat target)]> (descs w)) w)
  end.

Definition sim_inv_tell (d : LargeObjectDesc) (w : World) : Z * World :=
  match object_of d w with
  | None => (-1, w)
  | Some (_, pos, _) => (Z.of_nat pos, w)
  end.

Definition sim_inv_read (d : LargeObjectDesc) (nbytes : Z) (w : World)
    : (Z * list Byte.byte) * World :=
  match object_of d w with
  | None => ((-1, []), w)
  | Some (oid, pos, content) =>
      let data := take (Z.to_nat nbytes) (drop pos content) in
      ((Z.of_nat (length data), data),
       set_descs (<[d := (oid, (pos + length data)%nat)]> (descs w)) w)
  end.

Definition sim_inv_write (d : LargeObjectDesc) (buf : list Byte.byte) (nbytes : Z)
    (w : World) : Z * World :=
  match object_of d w with
  | None => (-1, w)
  | Some (oid, pos, content) =>
      let data := take (Z.to_nat nbytes) buf in
      (Z.of_nat (length data),
       set_descs (<[d := (oid, (pos + length data)%nat)]> (descs w))
         (set_objects (<[oid := store_at pos data content]> (objects w)) w))
  end.

Definition sim_heap_relid (d : LargeObjectDesc) (w : World) : Oid :=
  match descs w !! d with
  | None => InvalidOid
  | Some (oid, _) => oid
  end.

Definition sim_umask (mask : Z) (w : World) : Z * World :=
  (cur_umask w,
   mkWorld (is_superuser w) mask (files w) (vfds w) (objects w) (descs w) (next w)).

Definition sim_PathNameOpenFile (path : list Byte.byte) (flags : list OpenFlag) (mode : Z)
    (w : World) : File * World :=
  let w1 :=
    if has_flag O_CREAT flags then
      match file_get path (files w) with
      | Some c => if has_flag O_TRUNC flags then set_files (file_put path [] (files w)) w else w
      | None => set_files (file_put path [] (files w)) w
      end
    else w in
  match file_get path (files w1) with
  | None => (-1, w1)
  | Some _ =>
      let fd := Z.of_nat (next w1) in
      (fd, bump (set_vfds (<[fd := (path, O)]> (vfds w1)) w1))
  end.

Definition file_of (fd : File) (w : World) : option (list Byte.byte * nat * list Byte.byte) :=
  match vfds w !! fd with
  | None => None
  | Some (path, pos) =>
      match file_get path (files w) with
      | None => None
      | Some content => Some (path, pos, content)
      end
  end.

Definition sim_FileRead (fd : File) (amount : Z) (w : World)
    : (Z * list Byte.byte) * World :=
  match file_of fd w with
  | None => ((-1, []), w)
  | Some (path, pos, content) =>
      let data := take (Z.to_nat amount) (drop pos content) in
      ((Z.of_nat (length data), data),
       set_vfds (<[fd := (path, (pos + length data)%nat)]> (vfds w)) w)
  end.

Definition sim_FileWrite (fd : File) (buf : list Byte.byte) (amount : Z) (w : World)
    : Z * World :=
  match file_of fd w with
  | None => (-1, w)
  | Some (path, pos, content) =>
      let data := take (Z.to_nat amount) buf in
      (Z.of_nat (length data),
       set_vfds (<[fd := (path, (pos + length data)%nat)]> (vfds w))
         (set_files (file_put path (store_at pos data content) (files w)) w))
  end.

Definition sim_FileClose (fd : File) (w : World) : World :=
  set_vfds (delete fd (vfds w)) w.

#[global] Instance env : Environment World := {|
  ALLOW_DANGEROUS_LO_FUNCTIONS := false;
  VARHDRSZ := 4;
  INV_READ := 262144;
  INV_WRITE := 131072;
  TopMemoryContext := 1%nat;
  AllocSetContextCreate := fun _ _ w => (next w, bump w);
  MemoryContextDelete := fun _ w => w;
  palloc := fun _ w => w;
  inv_create := sim_inv_create;
  inv_open := sim_inv_open;
  inv_close := sim_inv_close;
  inv_drop := sim_inv_drop;
  inv_seek := sim_inv_seek;
  inv_tell := sim_inv_tell;
  inv_read := sim_inv_read;
  inv_write := sim_inv_write;
  inv_cleanindex := fun _ w => w;
  heap_relid := sim_heap_relid;
  superuser := is_superuser;
  umask := sim_umask;
  PathNameOpenFile := sim_PathNameOpenFile;
  FileRead := sim_FileRead;
  FileWrite := sim_FileWrite;
  FileClose := sim_FileClose;
|}.

(** A superuser's world holding the given files and objects. *)
Definition world_with (fs : list (list Byte.byte * list Byte.byte))
    (objs : list (Z * list Byte.byte)) : World :=
  mkWorld true 63 fs ∅ (list_to_map objs) ∅ 100.


(** In [w] descriptor [lobj] is open on an object whose bytes from the
    current position on are [l], and [fd] is open on a file. *)
Definition unread_obj (fd : File) (lobj : LargeObjectDesc) (w : World)
    (l : list Byte.byte) : Prop :=
  exists oid opos ocontent path pos content,
    descs w !! lobj = Some (oid, opos) /\
    objects w !! oid = Some ocontent /\
    l = drop opos ocontent /\
    vfds w !! fd = Some (path, pos) /\
    file_get path (files w) = Some content.

End Sim.

(** [s'] comes after [s] with the table and [fscxt] as they were: what
    a function that does not open, close or commit does to the state. *)
Definition frame {W} (s s' : Backend W) : Prop :=
  cookies s' = cookies s /\
  fscxt s' = fscxt s /\
  calls s `prefix_of` calls s'.

Definition frames {W A} (m : LO W A) : Prop := forall s, frame s (m s).2.

(** The descriptor behind [fd], if [fd] passes the two checks. *)
Definition lookup_fd {W} (s : Backend W) (fd : Z) : option LargeObjectDesc :=
  if (fd <? 0) || (fd >=? Z.of_nat MAX_LOBJ_FDS) then None
  else cookie_at (cookies s) (Z.to_nat fd).

(** ** Runs *)

(** A call of one of the entry points of the file. *)
Inductive Op :=
| Op_lo_open (lobjId : Oid) (mode : Z)
| Op_lo_close (fd : Z)
| Op_lo_read (fd len : Z)
| Op_lo_write (fd : Z) (buf : list Byte.byte) (len : Z)
| Op_lo_lseek (fd offset whence : Z)
| Op_lo_creat (mode : Z)
| Op_lo_tell (fd : Z)
| Op_lo_unlink (lobjId : Oid)
| Op_loread (fd len : Z)
| Op_lowrite (fd : Z) (wbuf : varlena)
| Op_lo_import (fuel : nat) (filename : varlena)
| Op_lo_export (fuel : nat) (lobjId : Oid) (filename : varlena)
| Op_lo_commit (isCommit : bool).

(** The state a call leaves behind, however it ends. *)
Definition run_op {W} `{Environment W} (op : Op) (s : Backend W) : Backend W :=
  match op with
  | Op_lo_open lobjId mode => (lo_open lobjId mode s).2
  | Op_lo_close fd => (lo_close fd s).2
  | Op_lo_read fd len => (lo_read fd len s).2
  | Op_lo_write fd buf len => (lo_write fd buf len s).2
  | Op_lo_lseek fd offset whence => (lo_lseek fd offset whence s).2
  | Op_lo_creat mode => (lo_creat mode s).2
  | Op_lo_tell fd => (lo_tell fd s).2
  | Op_lo_unlink lobjId => (lo_unlink lobjId s).2
  | Op_loread fd len => (loread fd len s).2
  | Op_lowrite fd wbuf => (lowrite fd wbuf s).2
  | Op_lo_import fuel filename => (lo_import fuel filename s).2
  | Op_lo_export fuel lobjId filename => (lo_export fuel lobjId filename s).2
  | Op_lo_commit isCommit => (lo_commit isCommit s).2
  end.

Definition run_ops {W} `{Environment W} (ops : list Op) (s : Backend W) : Backend W :=
  foldl (fun s op => run_op op s) s ops.

(** ** Failure causes of [lo_open] *)

(** The store turns the open down: [inv_open] returns [NULL]. *)
Definition store_rejects {W} `{Environment W} (s : Backend W) (lobjId : Oid) (mode : Z)
    : Prop :=
  (inv_open lobjId mode (world (after_fscxt_create s))).1 = None.

(** The store opens the object, giving descriptor [d], and no slot is
    free. *)
Definition table_exhausted {W} `{Environment W} (s : Backend W) (lobjId : Oid) (mode : Z)
    (d : LargeObjectDesc) : Prop :=
  (inv_open lobjId mode (world (after_fscxt_create s))).1 = Some d /\
  table_full (cookies s).

(** The reading of the specification under which the two causes give
    different results. *)
Definition open_failures_distinct (W : Type) `{Environment W} : Prop :=
  forall (s : Backend W) lobjId1 mode1 lobjId2 mode2 d,
    store_rejects s lobjId1 mode1 ->
    table_exhausted s lobjId2 mode2 d ->
    (lo_open lobjId1 mode1 s).1 <> (lo_open lobjId2 mode2 s).1.

(** The reading of the specification under which a [lo_open] that finds
    no free slot closes the descriptor it got from the store. *)
Definition exhausted_open_closes (W : Type) `{Environment W} : Prop :=
  forall (s : Backend W) lobjId mode d,
    table_exhausted s lobjId mode d ->
    d ∈ closed (calls_since s (lo_open lobjId mode s).2).

(** [newLOfd] for each of [ds] in turn: the table at the end and the
    results, in order. *)
Fixpoint newLOfd_all (ds : list LargeObjectDesc) (tbl : list (option LargeObjectDesc))
    : list (option LargeObjectDesc) * list Z :=
  match ds with
  | [] => (tbl, [])
  | d :: ds' =>
      let '(tbl', fd) := newLOfd_table d tbl in
      let '(tbl'', fds) := newLOfd_all ds' tbl' in
      (tbl'', fd :: fds)
  end.

(** ** Kinds of calls *)

(** The calls [lo_import] can make. *)
Definition is_import_call (c : Call) : bool :=
  match c with
  | superuser_call _ | PathNameOpenFile_call _ _ _ _ | inv_create_call _ _
  | FileRead_call _ _ _ | inv_write_call _ _ _ _ | FileClose_call _
  | inv_close_call _ => true
  | _ => false
  end.

(** The calls [lo_export] can make. *)
Definition is_export_call (c : Call) : bool :=
  match c with
  | superuser_call _ | inv_open_call _ _ _ | umask_call _ _
  | PathNameOpenFile_call _ _ _ _ | inv_read_call _ _ _ | FileWrite_call _ _ _ _
  | inv_close_call _ | FileClose_call _ => true
  | _ => false
  end.

(** The calls of the two copy loops. *)
Definition is_import_copy_call (c : Call) : bool :=
  match c with
  | FileRead_call _ _ _ | inv_write_call _ _ _ _ => true
  | _ => false
  end.

Definition is_export_copy_call (c : Call) : bool :=
  match c with
  | inv_read_call _ _ _ | FileWrite_call _ _ _ _ => true
  | _ => false
  end.

(** [s'] comes after [s] by a stretch of code that stays in the memory
    context it was entered in and leaves the table and [fscxt] alone;
    every call it made is of kind [P]. *)
Definition trace {W} (P : Call -> bool) (s s' : Backend W) : Prop :=
  cookies s' = cookies s /\
  fscxt s' = fscxt s /\
  CurrentMemoryContext s' = CurrentMemoryContext s /\
  exists new, calls s' = calls s ++ new /\
    Forall (fun c => c.1 = CurrentMemoryContext s /\ P c.2 = true) new.

Definition traced {W A} (P : Call -> bool) (m : LO W A) : Prop :=
  forall s, trace P s (m s).2.

(** The bytes handed to the file layer for [fd], one entry per
    [FileWrite] call, in call order. *)
Definition file_write_of (fd : File) (c : option MemoryContext * Call)
    : option (list Byte.byte) :=
  match c.2 with
  | FileWrite_call fd' buf amount _ =>
      if Z.eqb fd' fd then Some (take (Z.to_nat amount) buf) else None
  | _ => None
  end.

Definition file_written (fd : File) (log : list (option MemoryContext * Call))
    : list (list Byte.byte) :=
  omap (file_write_of fd) log.

(** A file write that took fewer bytes than it was given. *)
Definition short_file_write (c : option MemoryContext * Call) : bool :=
  match c.2 with
  | FileWrite_call _ _ amount r => r <? amount
  | _ => false
  end.

(** ** Concrete states *)

Module Examples.
Import Sim.

Definition path_a : list Byte.byte := [Byte.x2f; Byte.x61].

(** A file of 5000 bytes and one large object, 7, holding "hi". *)
Definition a_world : World :=
  world_with [(path_a, replicate 5000 Byte.x41)] [(7, [Byte.x68; Byte.x69])].

(** The start of a transaction. *)
Definition fresh : Backend World := initial (Some 5%nat) a_world.

(** After 256 successful [lo_open] calls in one transaction. *)
Definition exhausted : Backend World :=
  Nat.iter MAX_LOBJ_FDS (fun s => (lo_open 7 0 s).2) fresh.

(** After two [lo_open] calls. *)
Definition two_open : Backend World :=
  (lo_open 7 0 (lo_open 7 0 fresh).2).2.


Definition path_b : list Byte.byte := [Byte.x2f; Byte.x62].

(** A world whose large object 9 holds 2500 bytes. *)
Definition b_world : World := world_with [] [(9, replicate 2500 Byte.x42)].

Definition fresh_b : Backend World := initial (Some 5%nat) b_world.

(** [lo_export] of object 9 to [path_b], stopped where the copy loop
    begins: the object is open as descriptor 100 and the file as 101. *)
Definition exporting : Backend World :=
  ((call (inv_open 9 INV_READ) (inv_open_call 9 INV_READ) ;;;
    call (PathNameOpenFile path_b [O_CREAT; O_WRONLY; O_TRUNC; PG_BINARY] mode_0666)
         (PathNameOpenFile_call path_b [O_CREAT; O_WRONLY; O_TRUNC; PG_BINARY] mode_0666))
     fresh_b).2.
End Examples.

(** * Properties *)

(** ** The handle table *)

Lemma cookie_at_Some tbl i d : cookie_at tbl i = Some d -> (i < length tbl)%nat.
Proof.
  unfold cookie_at. destruct (tbl !! i) eqn:E; [|discriminate].
  intros _. eapply lookup_lt_Some; eauto.
Qed.

Lemma cookie_at_insert_eq tbl i c :
  (i < length tbl)%nat -> cookie_at (<[i := c]> tbl) i = c.
Proof. intros Hi. unfold cookie_at. by rewrite list_lookup_insert_eq. Qed.

Lemma cookie_at_insert_ne tbl i j c :
  i <> j -> cookie_at (<[i := c]> tbl) j = cookie_at tbl j.
Proof. intros Hne. unfold cookie_at. by rewrite list_lookup_insert_ne. Qed.

Lemma cookie_at_replicate n i : cookie_at (replicate n None) i = None.
Proof.
  unfold cookie_at. destruct (replicate n None !! i) eqn:E; [|done].
  apply lookup_replicate in E. tauto.
Qed.

Lemma cookie_at_all_None tbl :
  (forall i, cookie_at tbl i = None) -> tbl = replicate (length tbl) None.
Proof.
  intros Hall. apply list_eq. intros i.
  destruct (decide (i < length tbl)%nat) as [Hi|Hi].
  - rewrite lookup_replicate_2 by done.
    destruct (lookup_lt_is_Some_2 tbl i Hi) as [c Hc].
    specialize (Hall i). unfold cookie_at in Hall. rewrite Hc in Hall. by subst.
  - rewrite !lookup_ge_None_2; [done | rewrite length_replicate; lia | lia].
Qed.

(** The scan stops at the first empty slot at or after [i]. *)
Lemma newLOfd_from_found n : forall i j c tbl,
  (i <= j < i + n)%nat ->
  cookie_at tbl j = None ->
  (forall k, (i <= k < j)%nat -> cookie_at tbl k <> None) ->
  newLOfd_from n i c tbl = (<[j := Some c]> tbl, Z.of_nat j).
Proof.
  induction n as [|n IH]; intros i j c tbl Hij Hj Hbefore; [lia|].
  simpl. destruct (decide (i = j)) as [->|Hne].
  - by rewrite Hj.
  - destruct (cookie_at tbl i) eqn:E.
    + apply IH; [lia | done |]. intros k Hk. apply Hbefore. lia.
    + exfalso. apply (Hbefore i); [lia | done].
Qed.

(** With no empty slot in the scanned range the scan gives up. *)
Lemma newLOfd_from_full n : forall i c tbl,
  (forall k, (i <= k < i + n)%nat -> cookie_at tbl k <> None) ->
  newLOfd_from n i c tbl = (tbl, -1).
Proof.
  induction n as [|n IH]; intros i c tbl Hfull; [done|].
  simpl. destruct (cookie_at tbl i) eqn:E.
  - apply IH. intros k Hk. apply Hfull. lia.
  - exfalso. apply (Hfull i); [lia | done].
Qed.

(** A range holds a lowest empty slot, or none at all. *)
Lemma lowest_empty tbl n : forall i,
  (forall k, (i <= k < i + n)%nat -> cookie_at tbl k <> None) \/
  (exists j, (i <= j < i + n)%nat /\ cookie_at tbl j = None /\
             forall k, (i <= k < j)%nat -> cookie_at tbl k <> None).
Proof.
  induction n as [|n IH]; intros i; [left; intros; lia|].
  destruct (cookie_at tbl i) eqn:E.
  - destruct (IH (S i)) as [Hfull | (j & Hj & Hnone & Hbefore)].
    + left. intros k Hk. destruct (decide (k = i)) as [->|]; [congruence|].
      apply Hfull. lia.
    + right. exists j. split; [lia|]. split; [done|].
      intros k Hk. destruct (decide (k = i)) as [->|]; [congruence|].
      apply Hbefore. lia.
  - right. exists i. split; [lia|]. split; [done|]. intros; lia.
Qed.

Lemma table_full_insert tbl fd c :
  table_full tbl -> table_full (<[fd := Some c]> tbl).
Proof.
  intros Hfull i Hi. destruct (decide (fd = i)) as [->|Hne].
  - destruct (cookie_at tbl i) eqn:E; [|by apply Hfull in E].
    apply cookie_at_Some in E. by rewrite cookie_at_insert_eq.
  - rewrite cookie_at_insert_ne by done. by apply Hfull.
Qed.

(** C5: first fit.  On a table with an empty slot, [newLOfd] stores the
    descriptor in the empty slot of lowest index and returns that index,
    leaving the other slots as they were.  On a full table it returns
    -1 and changes nothing; after [deleteLOfd] on any one slot of a
    full table the next [newLOfd] returns the freed index and the one
    after that fails again. *)
Theorem newLOfd_first_fit (tbl : list (option LargeObjectDesc)) (c : LargeObjectDesc) :
  wf_table tbl ->
  ((exists k, (k < MAX_LOBJ_FDS)%nat /\ cookie_at tbl k = None) ->
   exists i, (i < MAX_LOBJ_FDS)%nat /\
     cookie_at tbl i = None /\
     (forall k, (k < i)%nat -> cookie_at tbl k <> None) /\
     newLOfd_table c tbl = (<[i := Some c]> tbl, Z.of_nat i) /\
     cookie_at (newLOfd_table c tbl).1 i = Some c /\
     (forall k, k <> i -> cookie_at (newLOfd_table c tbl).1 k = cookie_at tbl k)) /\
  (table_full tbl ->
   newLOfd_table c tbl = (tbl, -1) /\
   forall fd c1 c2, (fd < MAX_LOBJ_FDS)%nat ->
     let freed := deleteLOfd_table fd tbl in
     cookie_at freed fd = None /\
     newLOfd_table c1 freed = (<[fd := Some c1]> tbl, Z.of_nat fd) /\
     newLOfd_table c2 (newLOfd_table c1 freed).1 = (<[fd := Some c1]> tbl, -1)).
Proof.
  intros Hwf. unfold wf_table in Hwf. split.
  - intros (k & Hk & Hnone).
    destruct (lowest_empty tbl MAX_LOBJ_FDS 0) as [Hfull | (j & Hj & Hjn & Hbefore)].
    { exfalso. apply (Hfull k); [lia | done]. }
    exists j. split; [lia|]. split; [done|].
    split; [intros k' Hk'; apply Hbefore; lia|].
    assert (Heq : newLOfd_table c tbl = (<[j := Some c]> tbl, Z.of_nat j)).
    { unfold newLOfd_table. apply newLOfd_from_found; [lia | done | done]. }
    rewrite Heq. split; [done|]. simpl. split.
    + apply cookie_at_insert_eq. lia.
    + intros k' Hne. by apply cookie_at_insert_ne.
  - intros Hfull. split.
    { unfold newLOfd_table. apply newLOfd_from_full. intros k Hk. apply Hfull. lia. }
    intros fd c1 c2 Hfd freed.
    assert (Hfreed : cookie_at freed fd = None).
    { unfold freed, deleteLOfd_table. apply cookie_at_insert_eq. lia. }
    assert (Halloc : newLOfd_table c1 freed = (<[fd := Some c1]> tbl, Z.of_nat fd)).
    { unfold newLOfd_table.
      rewrite (newLOfd_from_found _ 0 fd c1 freed); [| lia | done |].
      - unfold freed, deleteLOfd_table. by rewrite list_insert_insert_eq.
      - intros k Hk. unfold freed, deleteLOfd_table.
        rewrite cookie_at_insert_ne by lia. apply Hfull. lia. }
    split; [done|]. split; [done|].
    rewrite Halloc. simpl. unfold newLOfd_table. apply newLOfd_from_full.
    intros k Hk. apply table_full_insert; [done | lia].
Qed.

(** ** The monad *)

Lemma bind_Returned {W A B} (m : LO W A) (k : A -> LO W B) s a s' :
  m s = (Returned a, s') -> bind m k s = k a s'.
Proof. intros E. unfold bind. by rewrite E. Qed.

Lemma bind_ElogERROR {W A B} (m : LO W A) (k : A -> LO W B) s msg s' :
  m s = (ElogERROR msg, s') -> bind m k s = (ElogERROR msg, s').
Proof. intros E. unfold bind. by rewrite E. Qed.

Lemma bind_OutOfFuel {W A B} (m : LO W A) (k : A -> LO W B) s s' :
  m s = (OutOfFuel, s') -> bind m k s = (OutOfFuel, s').
Proof. intros E. unfold bind. by rewrite E. Qed.

(** ** Descriptor checks *)

Section Checks.
Context {W : Type} `{Environment W}.

Lemma range_test_true (fd : Z) :
  fd < 0 \/ Z.of_nat MAX_LOBJ_FDS <= fd ->
  (fd <? 0) || (fd >=? Z.of_nat MAX_LOBJ_FDS) = true.
Proof.
  intros [Hlo|Hhi]; apply orb_true_iff.
  - left. by apply Z.ltb_lt.
  - right. rewrite Z.geb_leb. by apply Z.leb_le.
Qed.

Lemma range_test_false (fd : Z) :
  0 <= fd < Z.of_nat MAX_LOBJ_FDS ->
  (fd <? 0) || (fd >=? Z.of_nat MAX_LOBJ_FDS) = false.
Proof.
  intros [Hlo Hhi]. apply orb_false_iff. split.
  - by apply Z.ltb_ge.
  - rewrite Z.geb_leb. apply Z.leb_gt. lia.
Qed.

Lemma check_fd_out_of_range f fd (s : Backend W) :
  fd < 0 \/ Z.of_nat MAX_LOBJ_FDS <= fd ->
  check_fd f fd s = (ElogERROR (DescriptorOutOfRange f fd), s).
Proof. intros Hr. unfold check_fd. by rewrite range_test_true. Qed.

Lemma check_fd_invalid f fd (s : Backend W) :
  0 <= fd < Z.of_nat MAX_LOBJ_FDS ->
  cookie_at (cookies s) (Z.to_nat fd) = None ->
  check_fd f fd s = (ElogERROR (InvalidDescriptor f fd), s).
Proof.
  intros Hr Hc. unfold check_fd. rewrite range_test_false by done.
  unfold bind, get_cookie. by rewrite Hc.
Qed.

Lemma check_fd_valid f fd d (s : Backend W) :
  0 <= fd < Z.of_nat MAX_LOBJ_FDS ->
  cookie_at (cookies s) (Z.to_nat fd) = Some d ->
  check_fd f fd s = (Returned d, s).
Proof.
  intros Hr Hc. unfold check_fd. rewrite range_test_false by done.
  unfold bind, get_cookie. by rewrite Hc.
Qed.

(** What [check_fd] can do, by cases on the descriptor. *)
Lemma check_fd_cases f fd (s : Backend W) :
  ((fd < 0 \/ Z.of_nat MAX_LOBJ_FDS <= fd) /\
   check_fd f fd s = (ElogERROR (DescriptorOutOfRange f fd), s)) \/
  (0 <= fd < Z.of_nat MAX_LOBJ_FDS /\ cookie_at (cookies s) (Z.to_nat fd) = None /\
   check_fd f fd s = (ElogERROR (InvalidDescriptor f fd), s)) \/
  (exists d, 0 <= fd < Z.of_nat MAX_LOBJ_FDS /\
             cookie_at (cookies s) (Z.to_nat fd) = Some d /\
             check_fd f fd s = (Returned d, s)).
Proof.
  destruct (decide (0 <= fd < Z.of_nat MAX_LOBJ_FDS)) as [Hr|Hr].
  - destruct (cookie_at (cookies s) (Z.to_nat fd)) as [d|] eqn:E.
    + right; right. exists d. auto using check_fd_valid.
    + right; left. auto using check_fd_invalid.
  - left. assert (fd < 0 \/ Z.of_nat MAX_LOBJ_FDS <= fd) by lia.
    auto using check_fd_out_of_range.
Qed.

(** A successful [lo_close] empties the slot it was given. *)
Lemma lo_close_Returned fd r (s s1 : Backend W) :
  lo_close fd s = (Returned r, s1) ->
  0 <= fd < Z.of_nat MAX_LOBJ_FDS /\
  exists d, cookie_at (cookies s) (Z.to_nat fd) = Some d /\
    r = 0 /\
    cookies s1 = <[Z.to_nat fd := None]> (cookies s) /\
    fscxt s1 = fscxt s /\
    CurrentMemoryContext s1 = CurrentMemoryContext s /\
    world s1 = inv_close d (world s) /\
    calls s1 = calls s ++ [(fscxt s, inv_close_call d)].
Proof.
  unfold lo_close.
  destruct (check_fd_cases Flo_close fd s)
    as [(_ & E) | [(_ & _ & E) | (d & Hr & Hc & E)]].
  - rewrite (bind_ElogERROR _ _ _ _ _ E). discriminate.
  - rewrite (bind_ElogERROR _ _ _ _ _ E). discriminate.
  - rewrite (bind_Returned _ _ _ _ _ E). cbn. intros [= <- <-]. cbn.
    split; [done|]. exists d. auto 10.
Qed.
End Checks.

(** C4: every descriptor-taking operation ([lo_close], [lo_read],
    [lo_write], [lo_lseek], [lo_tell]) ends in the out-of-range error
    for a descriptor below 0 or at or above 256, and in the
    invalid-descriptor error for a descriptor in range whose slot is
    empty, in both cases without changing the state; a [lo_close] that
    follows a successful [lo_close] of the same descriptor ends in the
    invalid-descriptor error. *)
Theorem bad_descriptor_rejected {W : Type} `{Environment W}
    (s : Backend W) (fd len offset whence : Z) (buf : list Byte.byte) :
  (fd < 0 \/ 256 <= fd ->
     lo_close fd s = (ElogERROR (DescriptorOutOfRange Flo_close fd), s) /\
     lo_read fd len s = (ElogERROR (DescriptorOutOfRange Flo_read fd), s) /\
     lo_write fd buf len s = (ElogERROR (DescriptorOutOfRange Flo_write fd), s) /\
     lo_lseek fd offset whence s = (ElogERROR (DescriptorOutOfRange Flo_lseek fd), s) /\
     lo_tell fd s = (ElogERROR (DescriptorOutOfRange Flo_tell fd), s)) /\
  (0 <= fd < 256 -> cookie_at (cookies s) (Z.to_nat fd) = None ->
     lo_close fd s = (ElogERROR (InvalidDescriptor Flo_close fd), s) /\
     lo_read fd len s = (ElogERROR (InvalidDescriptor Flo_read fd), s) /\
     lo_write fd buf len s = (ElogERROR (InvalidDescriptor Flo_write fd), s) /\
     lo_lseek fd offset whence s = (ElogERROR (InvalidDescriptor Flo_lseek fd), s) /\
     lo_tell fd s = (ElogERROR (InvalidDescriptor Flo_tell fd), s)) /\
  (forall r s1, lo_close fd s = (Returned r, s1) ->
     lo_close fd s1 = (ElogERROR (InvalidDescriptor Flo_close fd), s1)).
Proof.
  split; [|split].
  - intros Hr.
    assert (Hr' : fd < 0 \/ Z.of_nat MAX_LOBJ_FDS <= fd) by (unfold MAX_LOBJ_FDS; lia).
    unfold lo_close, lo_read, lo_write, lo_lseek, lo_tell.
    repeat split; apply bind_ElogERROR; by apply check_fd_out_of_range.
  - intros Hr Hc.
    assert (Hr' : 0 <= fd < Z.of_nat MAX_LOBJ_FDS) by (unfold MAX_LOBJ_FDS; lia).
    unfold lo_close, lo_read, lo_write, lo_lseek, lo_tell.
    repeat split; apply bind_ElogERROR; by apply check_fd_invalid.
  - intros r s1 Hclose.
    apply lo_close_Returned in Hclose as (Hr & d & Hd & _ & Htbl & _).
    unfold lo_close. apply bind_ElogERROR. apply check_fd_invalid; [done|].
    rewrite Htbl. apply cookie_at_insert_eq. by eapply cookie_at_Some.
Qed.

(** ** The end-of-transaction hook *)

Lemma occupied_step tbl i n :
  occupied (take (S n) (drop i tbl)) =
  match cookie_at tbl i with Some d => [d] | None => [] end
    ++ occupied (take n (drop (S i) tbl)).
Proof.
  unfold occupied, cookie_at. destruct (tbl !! i) as [c|] eqn:E.
  - rewrite (drop_S _ _ _ E). simpl. by destruct c.
  - apply lookup_ge_None_1 in E.
    rewrite !drop_ge by lia. by rewrite !take_nil.
Qed.

Section Commit.
Context {W : Type} `{Environment W}.

Lemma lo_commit_loop_spec (isCommit : bool) n : forall i (s : Backend W),
  let ds := occupied (take n (drop i (cookies s))) in
  exists s', lo_commit_loop n i isCommit s = (Returned tt, s') /\
    length (cookies s') = length (cookies s) /\
    (forall k, cookie_at (cookies s') k =
               if decide (i <= k < i + n)%nat then None else cookie_at (cookies s) k) /\
    fscxt s' = fscxt s /\
    CurrentMemoryContext s' = CurrentMemoryContext s /\
    world s' = (if isCommit then foldl (fun w d => inv_cleanindex d w) (world s) ds
                else world s) /\
    calls s' = calls s ++
      (if isCommit then (fun d => (CurrentMemoryContext s, inv_cleanindex_call d)) <$> ds
       else []).
Proof.
  induction n as [|n IH]; intros i s ds.
  - exists s. subst ds. rewrite take_0. cbn.
    repeat split; try done.
    + intros k. case_decide; [lia | done].
    + by destruct isCommit.
    + destruct isCommit; by rewrite app_nil_r.
  - subst ds. rewrite occupied_step. cbn [lo_commit_loop].
    unfold bind at 1. unfold bind at 1. unfold get_cookie at 1.
    destruct (cookie_at (cookies s) i) as [d|] eqn:E.
    + pose proof (cookie_at_Some _ _ _ E) as Hi.
      set (s1 := mkBackend (<[i := None]> (cookies s)) (fscxt s) (CurrentMemoryContext s)
                   (if isCommit then inv_cleanindex d (world s) else world s)
                   (calls s ++ if isCommit
                               then [(CurrentMemoryContext s, inv_cleanindex_call d)]
                               else [])).
      assert (E1 : ((if isCommit
                     then call_ (inv_cleanindex d) (inv_cleanindex_call d)
                     else ret ());;; set_cookie i None) s = (Returned tt, s1)).
      { subst s1. destruct isCommit; cbn; [done|]. by rewrite app_nil_r. }
      rewrite E1.
      destruct (IH (S i) s1) as (s' & Hrun & Hlen & Hat & Hfs & Hcur & Hw & Hcalls).
      exists s'. split; [done|].
      assert (Hdrop : drop (S i) (cookies s1) = drop (S i) (cookies s)).
      { subst s1. cbn. apply drop_insert_lt. lia. }
      rewrite Hdrop in Hw, Hcalls.
      split; [by rewrite Hlen; subst s1; cbn; rewrite length_insert|].
      split.
      { intros k. rewrite Hat. subst s1. cbn.
        destruct (decide (k = i)) as [->|Hne].
        - rewrite cookie_at_insert_eq by done. repeat case_decide; done || lia.
        - rewrite cookie_at_insert_ne by done. repeat case_decide; done || lia. }
      split; [done|]. split; [done|]. split.
      { rewrite Hw. subst s1. by destruct isCommit. }
      rewrite Hcalls. subst s1. cbn. destruct isCommit; [|by rewrite app_nil_r].
      by rewrite <- app_assoc.
    + destruct (IH (S i) s) as (s' & Hrun & Hlen & Hat & Hfs & Hcur & Hw & Hcalls).
      exists s'. split; [done|]. split; [done|]. split.
      { intros k. rewrite Hat.
        destruct (decide (k = i)) as [->|Hne].
        - repeat case_decide; done || lia.
        - repeat case_decide; done || lia. }
      done.
Qed.
End Commit.

Section Hook.
Context {W : Type} `{Environment W}.

Lemma lo_commit_idle (isCommit : bool) (s : Backend W) :
  fscxt s = None -> lo_commit isCommit s = (Returned tt, s).
Proof. intros E. unfold lo_commit, bind, get_fscxt. by rewrite E. Qed.

Lemma lo_commit_active (isCommit : bool) cxt (s : Backend W) :
  fscxt s = Some cxt ->
  let ds := occupied (take MAX_LOBJ_FDS (cookies s)) in
  exists s', lo_commit isCommit s = (Returned tt, s') /\
    length (cookies s') = length (cookies s) /\
    (forall k, cookie_at (cookies s') k =
               if decide (k < MAX_LOBJ_FDS)%nat then None else cookie_at (cookies s) k) /\
    fscxt s' = None /\
    CurrentMemoryContext s' = CurrentMemoryContext s /\
    world s' = MemoryContextDelete cxt
                 (if isCommit then foldl (fun w d => inv_cleanindex d w) (world s) ds
                  else world s) /\
    calls s' = calls s ++
      (if isCommit then (fun d => (Some cxt, inv_cleanindex_call d)) <$> ds else []) ++
      [(CurrentMemoryContext s, MemoryContextDelete_call cxt)].
Proof.
  intros E ds. unfold lo_commit. unfold bind at 1. unfold get_fscxt at 1. rewrite E.
  unfold bind at 1. unfold MemoryContextSwitchTo at 1.
  set (s0 := mkBackend (cookies s) (fscxt s) (Some cxt) (world s) (calls s)).
  destruct (lo_commit_loop_spec isCommit MAX_LOBJ_FDS 0 s0)
    as (s1 & Hrun & Hlen & Hat & Hfs & Hcur & Hw & Hcalls).
  rewrite (bind_Returned _ _ _ _ _ Hrun). cbn.
  rewrite drop_0 in Hw, Hcalls. cbn in Hw, Hcalls, Hlen, Hat.
  eexists. split; [reflexivity|]. cbn.
  split; [done|]. split.
  { intros k. rewrite Hat. repeat case_decide; done || lia. }
  split; [done|]. split; [done|]. split; [by rewrite Hw|].
  rewrite Hcalls. cbn. by rewrite <- app_assoc.
Qed.
End Hook.

(** ** Opening and creating *)

Section Open.
Context {W : Type} `{Environment W}.

Lemma fscxt_create_Returned (s : Backend W) :
  fscxt_create s = (Returned tt, after_fscxt_create s).
Proof.
  unfold after_fscxt_create, fscxt_create, bind, get_fscxt.
  destruct (fscxt s); [done|]. unfold call.
  by destruct (AllocSetContextCreate TopMemoryContext "Filesystem" (world s)).
Qed.

Lemma after_fscxt_create_Some (s : Backend W) cxt :
  fscxt s = Some cxt -> after_fscxt_create s = s.
Proof.
  intros E. unfold after_fscxt_create, fscxt_create, bind, get_fscxt. by rewrite E.
Qed.

Lemma after_fscxt_create_None (s : Backend W) :
  fscxt s = None ->
  after_fscxt_create s =
    let '(cxt, w) := AllocSetContextCreate TopMemoryContext "Filesystem" (world s) in
    mkBackend (cookies s) (Some cxt) (CurrentMemoryContext s) w
      (calls s ++ [(CurrentMemoryContext s,
                    AllocSetContextCreate_call TopMemoryContext "Filesystem" cxt)]).
Proof.
  intros E. unfold after_fscxt_create, fscxt_create, bind, get_fscxt. rewrite E.
  unfold call. by destruct (AllocSetContextCreate TopMemoryContext "Filesystem" (world s)).
Qed.

Lemma after_fscxt_create_frame (s : Backend W) :
  cookies (after_fscxt_create s) = cookies s /\
  CurrentMemoryContext (after_fscxt_create s) = CurrentMemoryContext s /\
  fscxt (after_fscxt_create s) <> None.
Proof.
  destruct (fscxt s) as [cxt|] eqn:E.
  - rewrite (after_fscxt_create_Some s cxt E). by rewrite E.
  - rewrite (after_fscxt_create_None s E).
    by destruct (AllocSetContextCreate TopMemoryContext "Filesystem" (world s)).
Qed.

(** [lo_open], with the monad unfolded. *)
Lemma lo_open_unfold (lobjId : Oid) (mode : Z) (s : Backend W) :
  lo_open lobjId mode s =
    let s0 := after_fscxt_create s in
    let '(r, w) := inv_open lobjId mode (world s0) in
    let log := calls s0 ++ [(fscxt s0, inv_open_call lobjId mode r)] in
    match r with
    | None =>
        (Returned (-1), mkBackend (cookies s0) (fscxt s0) (CurrentMemoryContext s0) w log)
    | Some d =>
        (Returned (newLOfd_table d (cookies s0)).2,
         mkBackend (newLOfd_table d (cookies s0)).1 (fscxt s0) (CurrentMemoryContext s0)
                   w log)
    end.
Proof.
  unfold lo_open. rewrite (bind_Returned _ _ _ _ _ (fscxt_create_Returned s)).
  set (s0 := after_fscxt_create s). cbn.
  unfold bind at 1. unfold call at 1. cbn.
  destruct (inv_open lobjId mode (world s0)) as [[d|] w]; [|done].
  cbn. unfold bind, newLOfd. cbn.
  by destruct (newLOfd_table d (cookies s0)).
Qed.

(** [lo_creat], with the monad unfolded. *)
Lemma lo_creat_unfold (mode : Z) (s : Backend W) :
  lo_creat mode s =
    let s0 := after_fscxt_create s in
    let '(r, w) := inv_create mode (world s0) in
    match r with
    | None =>
        (Returned InvalidOid,
         mkBackend (cookies s0) (fscxt s0) (CurrentMemoryContext s0) w
                   (calls s0 ++ [(fscxt s0, inv_create_call mode None)]))
    | Some d =>
        (Returned (heap_relid d w),
         mkBackend (cookies s0) (fscxt s0) (CurrentMemoryContext s0) (inv_close d w)
                   (calls s0 ++ [(fscxt s0, inv_create_call mode (Some d));
                                 (fscxt s0, inv_close_call d)]))
    end.
Proof.
  unfold lo_creat. rewrite (bind_Returned _ _ _ _ _ (fscxt_create_Returned s)).
  set (s0 := after_fscxt_create s). cbn.
  unfold bind at 1. unfold call at 1. cbn.
  destruct (inv_create mode (world s0)) as [[d|] w]; [|done].
  cbn. by rewrite <- app_assoc.
Qed.
End Open.

Section AfterCommit.
Context {W : Type} `{Environment W}.

Lemma newLOfd_table_empty d :
  newLOfd_table d (replicate MAX_LOBJ_FDS None) =
    (<[0%nat := Some d]> (replicate MAX_LOBJ_FDS None), 0).
Proof.
  unfold newLOfd_table.
  apply (newLOfd_from_found MAX_LOBJ_FDS 0 0).
  - unfold MAX_LOBJ_FDS. lia.
  - apply cookie_at_replicate.
  - intros k Hk. lia.
Qed.

(** On an empty table the first [lo_open] the store accepts gets
    descriptor 0. *)
Lemma lo_open_first (s : Backend W) lobjId mode :
  cookies s = replicate MAX_LOBJ_FDS None ->
  match (inv_open lobjId mode (world (after_fscxt_create s))).1 with
  | Some d =>
      (lo_open lobjId mode s).1 = Returned 0 /\
      cookie_at (cookies (lo_open lobjId mode s).2) 0 = Some d
  | None => (lo_open lobjId mode s).1 = Returned (-1)
  end.
Proof.
  intros Hempty. rewrite lo_open_unfold. cbn zeta.
  destruct (after_fscxt_create_frame s) as (Htbl & _ & _).
  destruct (inv_open lobjId mode (world (after_fscxt_create s))) as [[d|] w]; [|done].
  cbn [fst snd cookies]. rewrite Htbl, Hempty, newLOfd_table_empty.
  cbn [fst snd]. split; [done|].
  apply cookie_at_insert_eq. rewrite length_replicate. unfold MAX_LOBJ_FDS. lia.
Qed.

(** [lo_commit] leaves a well-formed table empty. *)
Lemma lo_commit_clears (isCommit : bool) (s : Backend W) :
  wf_backend s ->
  (lo_commit isCommit s).1 = Returned tt /\
  cookies (lo_commit isCommit s).2 = replicate MAX_LOBJ_FDS None /\
  fscxt (lo_commit isCommit s).2 = None /\
  CurrentMemoryContext (lo_commit isCommit s).2 = CurrentMemoryContext s.
Proof.
  intros [Hlen Hidle]. destruct (fscxt s) as [cxt|] eqn:E.
  - destruct (lo_commit_active isCommit cxt s E)
      as (s' & Hrun & Hlen' & Hat & Hfs & Hcur & _).
    rewrite Hrun. cbn. split; [done|]. split; [|done].
    unfold wf_table in Hlen.
    rewrite <- Hlen, <- Hlen'. apply cookie_at_all_None.
    intros k. rewrite Hat. case_decide; [done|].
    unfold cookie_at. rewrite lookup_ge_None_2; [done | lia].
  - rewrite (lo_commit_idle isCommit s E). cbn. auto.
Qed.
End AfterCommit.

Lemma cleaned_cleanindex_calls (cxt : option MemoryContext) (ds : list LargeObjectDesc) :
  cleaned ((fun d => (cxt, inv_cleanindex_call d)) <$> ds) = ds.
Proof.
  unfold cleaned. induction ds as [|d ds IH]; [done|]. cbn. by rewrite IH.
Qed.

(** C1: on a well-formed state [lo_commit], with either flag, returns
    with every slot of the table empty, so that no descriptor is valid,
    and with [fscxt] cleared; called while [fscxt] is [NULL] it leaves
    the state as it is.  The next [lo_open] or [lo_creat] creates the
    private context again, and the first [lo_open] the store accepts,
    directly or after a [lo_creat], returns descriptor 0. *)
Theorem lo_commit_resets {W : Type} `{Environment W} (isCommit : bool) (s : Backend W) :
  wf_backend s ->
  let s' := (lo_commit isCommit s).2 in
  (lo_commit isCommit s).1 = Returned tt /\
  cookies s' = replicate MAX_LOBJ_FDS None /\
  (forall fd, ~ valid_fd s' fd) /\
  fscxt s' = None /\
  (fscxt s = None -> lo_commit isCommit s = (Returned tt, s)) /\
  (forall lobjId mode,
     let cxt := (AllocSetContextCreate TopMemoryContext "Filesystem" (world s')).1 in
     calls (after_fscxt_create s') =
       calls s' ++ [(CurrentMemoryContext s',
                     AllocSetContextCreate_call TopMemoryContext "Filesystem" cxt)] /\
     fscxt (lo_open lobjId mode s').2 = Some cxt /\
     fscxt (lo_creat mode s').2 = Some cxt /\
     match (inv_open lobjId mode (world (after_fscxt_create s'))).1 with
     | Some d =>
         (lo_open lobjId mode s').1 = Returned 0 /\
         cookie_at (cookies (lo_open lobjId mode s').2) 0 = Some d
     | None => (lo_open lobjId mode s').1 = Returned (-1)
     end /\
     forall mode',
       let s'' := (lo_creat mode' s').2 in
       match (inv_open lobjId mode (world s'')).1 with
       | Some d => (lo_open lobjId mode s'').1 = Returned 0
       | None => (lo_open lobjId mode s'').1 = Returned (-1)
       end).
Proof.
  intros Hwf s'.
  destruct (lo_commit_clears isCommit s Hwf) as (Hret & Htbl & Hfs & Hcur).
  fold s' in Htbl, Hfs, Hcur.
  split; [done|]. split; [done|]. split.
  { intros fd [_ Hv]. apply Hv. rewrite Htbl. apply cookie_at_replicate. }
  split; [done|]. split; [apply lo_commit_idle|].
  intros lobjId mode cxt.
  pose proof (after_fscxt_create_None s' Hfs) as Hafter.
  assert (Hcxt : fscxt (after_fscxt_create s') = Some cxt).
  { rewrite Hafter. subst cxt.
    by destruct (AllocSetContextCreate TopMemoryContext "Filesystem" (world s')). }
  split.
  { rewrite Hafter. subst cxt.
    by destruct (AllocSetContextCreate TopMemoryContext "Filesystem" (world s')). }
  split.
  { rewrite lo_open_unfold. cbn zeta.
    destruct (inv_open lobjId mode (world (after_fscxt_create s'))) as [[d|] w]; done. }
  assert (Hcreat : forall mode', fscxt (lo_creat mode' s').2 = Some cxt /\
                                 cookies (lo_creat mode' s').2 = cookies s').
  { intros mode'. rewrite lo_creat_unfold. cbn zeta.
    destruct (after_fscxt_create_frame s') as (Hc & _ & _).
    destruct (inv_create mode' (world (after_fscxt_create s'))) as [[d|] w]; done. }
  split; [apply Hcreat|]. split; [by apply lo_open_first|].
  intros mode' s''. destruct (Hcreat mode') as [Hfs'' Htbl'']. fold s'' in Hfs'', Htbl''.
  pose proof (lo_open_first s'' lobjId mode) as Hfirst.
  rewrite (after_fscxt_create_Some s'' cxt Hfs'') in Hfirst.
  rewrite Htbl'', Htbl in Hfirst. specialize (Hfirst eq_refl).
  destruct (inv_open lobjId mode (world s'')).1; tauto.
Qed.

(** C2: when [lo_commit] runs with the private context present, the
    calls it makes are one [inv_cleanindex] for the descriptor of every
    occupied slot, in slot order, if and only if the flag is commit (no
    [inv_cleanindex] at all on abort), followed by the deletion of the
    private context; with either flag every slot ends up empty and
    [fscxt] is cleared. *)
Theorem lo_commit_cleanindex {W : Type} `{Environment W}
    (isCommit : bool) (cxt : MemoryContext) (s : Backend W) :
  wf_table (cookies s) ->
  fscxt s = Some cxt ->
  let s' := (lo_commit isCommit s).2 in
  (lo_commit isCommit s).1 = Returned tt /\
  calls s' = calls s ++
    (if isCommit then (fun d => (Some cxt, inv_cleanindex_call d)) <$> occupied (cookies s)
     else []) ++
    [(CurrentMemoryContext s, MemoryContextDelete_call cxt)] /\
  cleaned (calls_since s s') = (if isCommit then occupied (cookies s) else []) /\
  (forall d, d ∈ cleaned (calls_since s s') <->
             isCommit = true /\ exists i, (i < MAX_LOBJ_FDS)%nat /\ cookie_at (cookies s) i = Some d) /\
  cookies s' = replicate MAX_LOBJ_FDS None /\
  fscxt s' = None.
Proof.
  intros Hlen E s'.
  destruct (lo_commit_active isCommit cxt s E)
    as (s1 & Hrun & Hlen' & Hat & Hfs & Hcur & _ & Hcalls).
  subst s'. rewrite Hrun. cbn.
  unfold wf_table in Hlen.
  rewrite <- Hlen, firstn_all in Hcalls.
  assert (Hcleaned : cleaned (calls_since s s1)
                     = if isCommit then occupied (cookies s) else []).
  { unfold calls_since. rewrite Hcalls, drop_app_length.
    unfold cleaned. rewrite omap_app. cbn. rewrite app_nil_r.
    destruct isCommit; [|done]. apply cleaned_cleanindex_calls. }
  split; [done|]. split; [done|]. split; [done|]. split.
  { intros d. rewrite Hcleaned. destruct isCommit.
    - unfold occupied. rewrite list_elem_of_omap. split.
      + intros (c & Hc & Hd). cbn in Hd. subst c.
        apply list_elem_of_lookup in Hc as [i Hi]. split; [done|].
        exists i. split.
        * apply lookup_lt_Some in Hi. lia.
        * unfold cookie_at. by rewrite Hi.
      + intros (_ & i & Hi & Hd). exists (Some d). split; [|done].
        unfold cookie_at in Hd. destruct (cookies s !! i) as [c|] eqn:Ec; [|done].
        subst c. apply list_elem_of_lookup. by exists i.
    - split; [by intros ?%elem_of_nil | by intros [? _]]. }
  split; [|done].
  rewrite <- Hlen at 1. rewrite <- Hlen'. apply cookie_at_all_None.
  intros k. rewrite Hat. case_decide; [done|].
  unfold cookie_at. rewrite lookup_ge_None_2; [done | lia].
Qed.

(** ** Failed opens *)

Lemma forallb_table_full tbl :
  wf_table tbl -> forallb is_occupied tbl = true -> table_full tbl.
Proof.
  intros Hlen Hall i Hi. unfold wf_table in Hlen.
  destruct (lookup_lt_is_Some_2 tbl i) as [c Hc]; [lia|].
  unfold cookie_at. rewrite Hc.
  rewrite forallb_forall in Hall.
  assert (Hin : In c tbl) by (apply list_elem_of_In, list_elem_of_lookup; eauto).
  apply Hall in Hin. by destruct c.
Qed.

Lemma exhausted_table_full : table_full (cookies Examples.exhausted).
Proof. apply forallb_table_full; by vm_compute. Qed.

(** On a full table a [lo_open] the store accepts returns -1 having
    done nothing after [inv_open]. *)
Lemma lo_open_exhausted {W : Type} `{Environment W} (s : Backend W) lobjId mode d :
  table_exhausted s lobjId mode d ->
  let s0 := after_fscxt_create s in
  lo_open lobjId mode s =
    (Returned (-1),
     mkBackend (cookies s) (fscxt s0) (CurrentMemoryContext s)
               (inv_open lobjId mode (world s0)).2
               (calls s0 ++ [(fscxt s0, inv_open_call lobjId mode (Some d))])).
Proof.
  intros [Hopen Hfull] s0. subst s0. rewrite lo_open_unfold. cbn zeta.
  destruct (after_fscxt_create_frame s) as (Htbl & Hcur & _).
  destruct (inv_open lobjId mode (world (after_fscxt_create s))) as [r w].
  cbn in Hopen. subst r.
  assert (Hnew : newLOfd_table d (cookies (after_fscxt_create s)) = (cookies s, -1)).
  { rewrite Htbl. unfold newLOfd_table. apply newLOfd_from_full.
    intros k Hk. apply Hfull. lia. }
  by rewrite Hnew, Hcur.
Qed.

(** C3, as the code has it: [lo_open] returns -1 when the store turns
    the open down, and returns the same -1 when the store opens the
    object but the table has no free slot. *)
Theorem lo_open_failure_value {W : Type} `{Environment W}
    (s : Backend W) (lobjId : Oid) (mode : Z) :
  (store_rejects s lobjId mode -> (lo_open lobjId mode s).1 = Returned (-1)) /\
  (forall d, table_exhausted s lobjId mode d -> (lo_open lobjId mode s).1 = Returned (-1)).
Proof.
  split.
  - unfold store_rejects. intros Hrej. rewrite lo_open_unfold. cbn zeta.
    destruct (inv_open lobjId mode (world (after_fscxt_create s))) as [r w].
    cbn in Hrej. by subst r.
  - intros d Hex. by rewrite (lo_open_exhausted s lobjId mode d Hex).
Qed.

Lemma lo_open_failure_value_witness :
  (lo_open 8 0 Examples.exhausted).1 = Returned (-1) /\
  (lo_open 7 0 Examples.exhausted).1 = Returned (-1).
Proof.
  destruct (lo_open_failure_value Examples.exhausted 8 0) as [Hrejected _].
  destruct (lo_open_failure_value Examples.exhausted 7 0) as [_ Hexhausted].
  split.
  - apply Hrejected. by vm_compute.
  - apply (Hexhausted 357%nat). split; [by vm_compute | apply exhausted_table_full].
Defined.

(** C3, as stated, fails: after 256 opens in one transaction, opening
    an object that does not exist and opening one that does both return
    -1. *)
Lemma lo_open_failures_alike :
  ~ open_failures_distinct Sim.World /\
  (lo_open 8 0 Examples.exhausted).1 = Returned (-1) /\
  (lo_open 7 0 Examples.exhausted).1 = Returned (-1).
Proof.
  split; [|split; by vm_compute].
  intros Hdistinct.
  apply (Hdistinct Examples.exhausted 8 0 7 0 357%nat).
  - by vm_compute.
  - split; [by vm_compute | apply exhausted_table_full].
  - by vm_compute.
Qed.

(** C6, as the code has it: when the store opens the object and no slot
    is free, [lo_open] returns -1 with the table unchanged; its only
    call after the private context exists is the [inv_open] itself, so
    the descriptor is neither closed nor stored anywhere. *)
Theorem lo_open_exhausted_leaves_open {W : Type} `{Environment W}
    (s : Backend W) (lobjId : Oid) (mode : Z) (d : LargeObjectDesc) :
  table_exhausted s lobjId mode d ->
  let s0 := after_fscxt_create s in
  let s' := (lo_open lobjId mode s).2 in
  (lo_open lobjId mode s).1 = Returned (-1) /\
  cookies s' = cookies s /\
  world s' = (inv_open lobjId mode (world s0)).2 /\
  calls_since s0 s' = [(fscxt s0, inv_open_call lobjId mode (Some d))] /\
  closed (calls_since s s') = [].
Proof.
  intros Hex s0 s'. subst s'.
  rewrite (lo_open_exhausted s lobjId mode d Hex). fold s0. cbn.
  split; [done|]. split; [done|]. split; [done|].
  unfold calls_since. cbn. rewrite drop_app_length. split; [done|].
  destruct (fscxt s) as [cxt|] eqn:E.
  - subst s0. rewrite (after_fscxt_create_Some s cxt E). by rewrite drop_app_length.
  - subst s0. rewrite (after_fscxt_create_None s E).
    destruct (AllocSetContextCreate TopMemoryContext "Filesystem" (world s)) as [cxt w].
    cbn. rewrite <- app_assoc. by rewrite drop_app_length.
Qed.

Lemma lo_open_exhausted_leaves_open_witness :
  (lo_open 7 0 Examples.exhausted).1 = Returned (-1) /\
  closed (calls_since Examples.exhausted (lo_open 7 0 Examples.exhausted).2) = [].
Proof.
  destruct (lo_open_exhausted_leaves_open Examples.exhausted 7 0 357%nat)
    as (Hret & _ & _ & _ & Hclosed).
  - split; [by vm_compute | apply exhausted_table_full].
  - split; [exact Hret | exact Hclosed].
Defined.

(** C6, as stated, fails: after 256 opens in one transaction the next
    [lo_open] of an existing object returns -1 without any [inv_close],
    and the descriptor it got, 357, is still open in the store. *)
Lemma lo_open_exhausted_not_closed :
  ~ exhausted_open_closes Sim.World /\
  Sim.descs (world (lo_open 7 0 Examples.exhausted).2) !! 357%nat = Some (7, 0%nat).
Proof.
  split.
  - intros Hcloses.
    assert (Hex : table_exhausted Examples.exhausted 7 0 357%nat).
    { split; [by vm_compute | apply exhausted_table_full]. }
    specialize (Hcloses Examples.exhausted 7 0 357%nat Hex).
    vm_compute in Hcloses. by apply elem_of_nil in Hcloses.
  - by vm_compute.
Qed.

(** ** Functions that leave the table alone *)

Lemma frame_refl {W} (s : Backend W) : frame s s.
Proof. by repeat split. Qed.

Lemma frame_trans {W} (s1 s2 s3 : Backend W) : frame s1 s2 -> frame s2 s3 -> frame s1 s3.
Proof.
  intros (Ht & Hf & Hc) (Ht' & Hf' & Hc'). repeat split; [congruence | congruence |].
  by etrans.
Qed.

Lemma frame_record {W} (c : Call) (s : Backend W) (w : W) : frame s (record c s w).
Proof. repeat split. cbn. by apply prefix_app_r. Qed.

Lemma frames_ret {W A} (a : A) : frames (ret (W:=W) a).
Proof. intros s. apply frame_refl. Qed.

Lemma frames_elog_ERROR {W A} msg : frames (elog_ERROR (W:=W) (A:=A) msg).
Proof. intros s. apply frame_refl. Qed.

Lemma frames_out_of_fuel {W A} : frames (out_of_fuel (W:=W) (A:=A)).
Proof. intros s. apply frame_refl. Qed.

Lemma frames_call {W A} (f : W -> A * W) (ev : A -> Call) : frames (call f ev).
Proof. intros s. unfold call. destruct (f (world s)). apply frame_record. Qed.

Lemma frames_call_ {W} (f : W -> W) (ev : Call) : frames (call_ f ev).
Proof. intros s. apply frame_record. Qed.

Lemma frames_ask {W A} (f : W -> A) : frames (ask f).
Proof. intros s. apply frame_refl. Qed.

Lemma frames_get_fscxt {W} : frames (get_fscxt (W:=W)).
Proof. intros s. apply frame_refl. Qed.

Lemma frames_get_cookie {W} i : frames (get_cookie (W:=W) i).
Proof. intros s. apply frame_refl. Qed.

Lemma frames_MemoryContextSwitchTo {W} cxt : frames (MemoryContextSwitchTo (W:=W) cxt).
Proof. intros s. by repeat split. Qed.

Lemma frames_bind {W A B} (m : LO W A) (k : A -> LO W B) :
  frames m -> (forall a, frames (k a)) -> frames (bind m k).
Proof.
  intros Hm Hk s. unfold bind. specialize (Hm s).
  destruct (m s) as [[a| |] s1]; cbn in *; [|done|done].
  eapply frame_trans; [exact Hm | apply Hk].
Qed.

Create HintDb frames.
#[global] Hint Resolve frames_ret frames_elog_ERROR frames_out_of_fuel frames_call
  frames_call_ frames_ask frames_get_fscxt frames_get_cookie
  frames_MemoryContextSwitchTo : frames.

(** Splits a monadic term along its binds and case distinctions. *)
Ltac frames_step :=
  match goal with
  | |- frames (bind _ _) => apply frames_bind; [|intros]
  | |- frames (if ?b then _ else _) => destruct b
  | |- frames (match ?x with _ => _ end) => destruct x
  | |- frames _ => solve [auto with frames]
  end.

Ltac frames_auto := repeat frames_step.

Section Frames.
Context {W : Type} `{Environment W}.

Lemma frames_check_fd f fd : frames (check_fd (W:=W) f fd).
Proof. unfold check_fd. frames_auto. Qed.

Lemma frames_lo_read fd len : frames (lo_read (W:=W) fd len).
Proof. unfold lo_read. pose proof frames_check_fd. frames_auto. Qed.

Lemma frames_lo_write fd buf len : frames (lo_write (W:=W) fd buf len).
Proof. unfold lo_write. pose proof frames_check_fd. frames_auto. Qed.

Lemma frames_lo_lseek fd offset whence : frames (lo_lseek (W:=W) fd offset whence).
Proof. unfold lo_lseek. pose proof frames_check_fd. frames_auto. Qed.

Lemma frames_lo_tell fd : frames (lo_tell (W:=W) fd).
Proof. unfold lo_tell. pose proof frames_check_fd. frames_auto. Qed.

Lemma frames_lo_unlink lobjId : frames (lo_unlink (W:=W) lobjId).
Proof. unfold lo_unlink. frames_auto. Qed.

Lemma frames_loread fd len : frames (loread (W:=W) fd len).
Proof. unfold loread. pose proof frames_lo_read. frames_auto. Qed.

Lemma frames_lowrite fd wbuf : frames (lowrite (W:=W) fd wbuf).
Proof. unfold lowrite. apply frames_lo_write. Qed.

Lemma frames_superuser_gate f : frames (superuser_gate (W:=W) f).
Proof. unfold superuser_gate. frames_auto. Qed.

Lemma frames_lo_import_copy fuel fd lobj fnamebuf :
  frames (lo_import_copy (W:=W) fuel fd lobj fnamebuf).
Proof.
  induction fuel as [|fuel IH]; cbn [lo_import_copy]; frames_auto.
Qed.

Lemma frames_lo_export_copy fuel fd lobj fnamebuf :
  frames (lo_export_copy (W:=W) fuel fd lobj fnamebuf).
Proof.
  induction fuel as [|fuel IH]; cbn [lo_export_copy]; frames_auto.
Qed.

Lemma frames_lo_import fuel filename : frames (lo_import (W:=W) fuel filename).
Proof.
  unfold lo_import.
  pose proof frames_superuser_gate. pose proof frames_lo_import_copy. frames_auto.
Qed.

Lemma frames_lo_export fuel lobjId filename :
  frames (lo_export (W:=W) fuel lobjId filename).
Proof.
  unfold lo_export.
  pose proof frames_superuser_gate. pose proof frames_lo_export_copy. frames_auto.
Qed.
End Frames.

(** ** Creating *)

(** C7: for every mode [lo_creat] leaves the table of descriptors (and
    the current memory context) as it found them.  Once the private
    context exists its calls are [inv_create] with the given mode and,
    when that yields a descriptor, [inv_close] on it right away; the
    result is the Oid of the new object's relation.  When [inv_create]
    yields no descriptor the result is [InvalidOid] and nothing is
    closed. *)
Theorem lo_creat_no_handle {W : Type} `{Environment W} (s : Backend W) (mode : Z) :
  let s0 := after_fscxt_create s in
  let s' := (lo_creat mode s).2 in
  cookies s' = cookies s /\
  CurrentMemoryContext s' = CurrentMemoryContext s /\
  match inv_create mode (world s0) with
  | (Some d, w) =>
      (lo_creat mode s).1 = Returned (heap_relid d w) /\
      world s' = inv_close d w /\
      calls_since s0 s' =
        [(fscxt s0, inv_create_call mode (Some d)); (fscxt s0, inv_close_call d)]
  | (None, w) =>
      (lo_creat mode s).1 = Returned InvalidOid /\
      world s' = w /\
      calls_since s0 s' = [(fscxt s0, inv_create_call mode None)]
  end.
Proof.
  intros s0 s'. subst s' s0. rewrite lo_creat_unfold. cbn zeta.
  destruct (after_fscxt_create_frame s) as (Htbl & Hcur & _).
  unfold calls_since.
  destruct (inv_create mode (world (after_fscxt_create s))) as [[d|] w]; cbn;
    by rewrite drop_app_length.
Qed.

(** ** Reading into a bytea *)

Section Loread.
Context {W : Type} `{Environment W}.

Lemma lookup_fd_Some (s : Backend W) fd d :
  lookup_fd s fd = Some d ->
  0 <= fd < Z.of_nat MAX_LOBJ_FDS /\ cookie_at (cookies s) (Z.to_nat fd) = Some d.
Proof.
  unfold lookup_fd.
  destruct (decide (0 <= fd < Z.of_nat MAX_LOBJ_FDS)) as [Hr|Hr].
  - by rewrite range_test_false.
  - rewrite range_test_true by lia. discriminate.
Qed.

Lemma lookup_fd_None (s : Backend W) f fd :
  lookup_fd s fd = None -> exists msg, check_fd f fd s = (ElogERROR msg, s).
Proof.
  intros Hl. destruct (check_fd_cases f fd s)
    as [(_ & E) | [(_ & _ & E) | (d & Hr & Hc & E)]]; eauto.
  unfold lookup_fd in Hl. rewrite range_test_false in Hl by done. congruence.
Qed.

(** [lo_read] on a descriptor that passes the checks. *)
Lemma lo_read_valid (s : Backend W) fd len d :
  lookup_fd s fd = Some d ->
  lo_read fd len s =
    let '(r, w) := inv_read d len (world s) in
    (Returned r,
     mkBackend (cookies s) (fscxt s) (CurrentMemoryContext s) w
               (calls s ++ [(fscxt s, inv_read_call d len r.1)])).
Proof.
  intros [Hr Hc]%lookup_fd_Some. unfold lo_read.
  rewrite (bind_Returned _ _ _ _ _ (check_fd_valid Flo_read fd d s Hr Hc)).
  cbn. unfold bind, call. cbn.
  by destruct (inv_read d len (world s)) as [r w].
Qed.

(** [loread]: the allocation, then [lo_read] with the length that was
    allocated for. *)
Lemma loread_unfold (s : Backend W) fd len :
  let n := loread_len len in
  let size := Z.of_nat VARHDRSZ + n in
  let s1 := record (palloc_call size) s (palloc size (world s)) in
  match lookup_fd s fd with
  | Some d =>
      loread fd len s =
        let '(r, w) := inv_read d n (world s1) in
        (Returned (r.1 + Z.of_nat VARHDRSZ, r.2),
         mkBackend (cookies s) (fscxt s) (CurrentMemoryContext s) w
                   (calls s ++ [(CurrentMemoryContext s, palloc_call size);
                                (fscxt s, inv_read_call d n r.1)]))
  | None => exists msg, loread fd len s = (ElogERROR msg, s1)
  end.
Proof.
  intros n size s1.
  assert (Hp : call_ (palloc size) (palloc_call size) s = (Returned tt, s1)) by done.
  assert (Hl : lookup_fd s1 fd = lookup_fd s fd) by done.
  destruct (lookup_fd s fd) as [d|] eqn:E.
  - unfold loread. fold n. fold size. rewrite (bind_Returned _ _ _ _ _ Hp).
    unfold bind. rewrite (lo_read_valid s1 fd n d Hl).
    destruct (inv_read d n (world s1)) as [[r data] w]. cbn.
    by rewrite <- app_assoc.
  - destruct (lookup_fd_None s1 Flo_read fd Hl) as [msg Hmsg].
    exists msg. unfold loread. fold n. fold size. rewrite (bind_Returned _ _ _ _ _ Hp).
    apply bind_ElogERROR. unfold lo_read. by apply bind_ElogERROR.
Qed.



End Loread.


(** ** File names *)

Lemma bind_call {W A B} (f : W -> A * W) (ev : A -> Call) (k : A -> LO W B) (s : Backend W) :
  bind (call f ev) k s = k (f (world s)).1 (record (ev (f (world s)).1) s (f (world s)).2).
Proof. unfold bind, call. by destruct (f (world s)). Qed.



Section FileNames.
Context {W : Type} `{Environment W}.

Lemma fname_nbytes_min (filename : varlena) :
  fname_nbytes filename = Z.min (Z.of_nat (length filename)) (FNAME_BUFSIZE - 1).
Proof.
  unfold fname_nbytes, VARSIZE.
  replace (Z.of_nat VARHDRSZ + Z.of_nat (length filename) - Z.of_nat VARHDRSZ)
    with (Z.of_nat (length filename)) by lia.
  rewrite Z.geb_leb. destruct (Z.leb_spec FNAME_BUFSIZE (Z.of_nat (length filename))); lia.
Qed.

Lemma fill_fnamebuf_take (filename : varlena) :
  fill_fnamebuf filename = take (Z.to_nat (FNAME_BUFSIZE - 1)) filename ++ [Byte.x00].
Proof.
  unfold fill_fnamebuf. rewrite fname_nbytes_min. f_equal.
  destruct (Z.le_ge_cases (Z.of_nat (length filename)) (FNAME_BUFSIZE - 1)) as [Hle|Hge].
  - rewrite Z.min_l by done. rewrite Nat2Z.id.
    rewrite firstn_all. symmetry. apply take_ge. lia.
  - by rewrite Z.min_r.
Qed.



End FileNames.


(** ** Copying in chunks *)

Section Chunks.
Context {A : Type}.
Implicit Types l : list A.

Lemma chunks_upto_enough n : forall k k' l,
  (0 < n)%nat -> (length l <= k)%nat -> (length l <= k')%nat ->
  chunks_upto k n l = chunks_upto k' n l.
Proof.
  induction k as [|k IH]; intros k' l Hn Hk Hk'.
  - destruct l; [|cbn in Hk; lia]. by destruct k'.
  - destruct l as [|x l]; [by destruct k'|].
    destruct k' as [|k']; [cbn in Hk'; lia|].
    cbn [chunks_upto]. f_equal.
    apply IH; [done | |]; rewrite length_drop; cbn in *; lia.
Qed.

Lemma chunks_nil n : chunks n (@nil A) = [].
Proof. done. Qed.

Lemma chunks_cons n l :
  (0 < n)%nat -> l <> [] -> chunks n l = take n l :: chunks n (drop n l).
Proof.
  intros Hn Hl. unfold chunks. destruct l as [|x l]; [done|].
  cbn [length chunks_upto]. f_equal.
  apply chunks_upto_enough; [done | | done].
  rewrite length_drop. cbn. lia.
Qed.

Lemma concat_chunks n l : (0 < n)%nat -> concat (chunks n l) = l.
Proof.
  intros Hn. remember (length l) as k eqn:Hk.
  revert l Hk. induction k as [k IH] using lt_wf_ind. intros l Hk.
  destruct l as [|x l]; [done|].
  rewrite chunks_cons by done. cbn [concat].
  rewrite (IH (length (drop n (x :: l)))); [apply take_drop | | done].
  rewrite length_drop. subst k. cbn. lia.
Qed.

(** Every chunk but the last has [n] elements; the last one has what
    is left. *)
Lemma chunks_lengths n l :
  (0 < n)%nat ->
  length <$> chunks n l =
    replicate (length l / n) n ++
    (if (length l mod n =? 0)%nat then [] else [(length l mod n)%nat]).
Proof.
  intros Hn. remember (length l) as k eqn:Hk.
  revert l Hk. induction k as [k IH] using lt_wf_ind. intros l Hk.
  destruct l as [|x l].
  { cbn in Hk. subst k. rewrite chunks_nil.
    rewrite Nat.Div0.div_0_l, Nat.Div0.mod_0_l. done. }
  rewrite chunks_cons by done. cbn [fmap list_fmap].
  destruct (decide (n <= k)%nat) as [Hle|Hlt].
  - rewrite length_take, <- Hk, Nat.min_l by done.
    rewrite (IH (k - n)%nat); [| lia | by rewrite length_drop, <- Hk].
    replace (k / n)%nat with (S ((k - n) / n)).
    2: { replace k with (1 * n + (k - n))%nat at 2 by lia.
         rewrite Nat.div_add_l by lia. lia. }
    replace (k mod n)%nat with ((k - n) mod n)%nat; [done|].
    replace k with ((k - n) + 1 * n)%nat at 2 by lia.
    by rewrite Nat.Div0.mod_add.
  - rewrite length_take, <- Hk, Nat.min_r by lia.
    rewrite drop_ge by lia. rewrite chunks_nil. cbn [fmap list_fmap].
    rewrite Nat.div_small, Nat.mod_small by lia. cbn [replicate app].
    destruct (Nat.eqb_spec k 0); [cbn in Hk; lia | done].
Qed.
End Chunks.

Lemma calls_since_app {W} (s s' : Backend W) new :
  calls s' = calls s ++ new -> calls_since s s' = new.
Proof. intros E. unfold calls_since. by rewrite E, drop_app_length. Qed.

Section ImportCopy.
Context {W : Type} `{Environment W}.
Variables (fd : File) (lobj : LargeObjectDesc) (fnamebuf : list Byte.byte).

(** One turn of the loop. *)
Lemma lo_import_copy_S fuel (s : Backend W) :
  lo_import_copy (S fuel) fd lobj fnamebuf s =
    let r := FileRead fd (Z.of_nat BUFSIZE) (world s) in
    let s1 := record (FileRead_call fd (Z.of_nat BUFSIZE) r.1.1) s r.2 in
    if r.1.1 >? 0 then
      let t := inv_write lobj r.1.2 r.1.1 (world s1) in
      let s2 := record (inv_write_call lobj r.1.2 r.1.1 t.1) s1 t.2 in
      if t.1 <? r.1.1 then (ElogERROR (ErrorWhileReading (c_string fnamebuf)), s2)
      else lo_import_copy fuel fd lobj fnamebuf s2
    else (Returned tt, s1).
Proof.
  cbn [lo_import_copy]. rewrite bind_call. cbn zeta.
  destruct (FileRead fd (Z.of_nat BUFSIZE) (world s)) as [[n buf] w]. cbn [fst snd].
  destruct (n >? 0); [|done]. rewrite bind_call. cbn [fst snd world record].
  by destruct (_ <? n).
Qed.



(** [unread w l]: in world [w] the bytes of the source file not yet
    read are [l].  The file is read in full chunks, and the store takes
    every byte it is given without touching the file. *)
Variable unread : W -> list Byte.byte -> Prop.
Hypothesis FileRead_chunk : forall w l,
  unread w l ->
  (FileRead fd (Z.of_nat BUFSIZE) w).1 =
    (Z.of_nat (length (take BUFSIZE l)), take BUFSIZE l) /\
  unread (FileRead fd (Z.of_nat BUFSIZE) w).2 (drop BUFSIZE l).
Hypothesis inv_write_full : forall w l (chunk : list Byte.byte),
  unread w l ->
  Z.of_nat (length chunk) <= (inv_write lobj chunk (Z.of_nat (length chunk)) w).1 /\
  unread (inv_write lobj chunk (Z.of_nat (length chunk)) w).2 l.


End ImportCopy.


Section WholeImport.
Context {W : Type} `{Environment W}.


End WholeImport.




(** ** Well-formedness is kept *)

Lemma newLOfd_table_length d tbl : length (newLOfd_table d tbl).1 = length tbl.
Proof.
  unfold newLOfd_table.
  destruct (lowest_empty tbl MAX_LOBJ_FDS 0) as [Hfull | (j & Hj & Hnone & Hbefore)].
  - by rewrite newLOfd_from_full.
  - rewrite (newLOfd_from_found _ 0 j) by done. cbn. apply length_insert.
Qed.

Section WellFormed.
Context {W : Type} `{Environment W}.

Lemma wf_backend_initial cur (w : W) : wf_backend (initial cur w).
Proof. split; [apply length_replicate | done]. Qed.

Lemma wf_backend_frame (s s' : Backend W) : frame s s' -> wf_backend s -> wf_backend s'.
Proof. intros (Htbl & Hfs & _) [Hlen Hidle]. split; rewrite Htbl; [done | by rewrite Hfs]. Qed.

Lemma wf_backend_lo_open lobjId mode (s : Backend W) :
  wf_backend s -> wf_backend (lo_open lobjId mode s).2.
Proof.
  intros [Hlen _]. rewrite lo_open_unfold. cbn zeta.
  destruct (after_fscxt_create_frame s) as (Htbl & _ & Hfs).
  destruct (inv_open lobjId mode (world (after_fscxt_create s))) as [[d|] w];
    (split; [|done]); unfold wf_table; cbn [snd cookies].
  - by rewrite newLOfd_table_length, Htbl.
  - by rewrite Htbl.
Qed.

Lemma wf_backend_lo_creat mode (s : Backend W) :
  wf_backend s -> wf_backend (lo_creat mode s).2.
Proof.
  intros [Hlen _]. rewrite lo_creat_unfold. cbn zeta.
  destruct (after_fscxt_create_frame s) as (Htbl & _ & Hfs).
  destruct (inv_create mode (world (after_fscxt_create s))) as [[d|] w];
    (split; [|done]); unfold wf_table; cbn [snd cookies]; by rewrite Htbl.
Qed.

Lemma wf_backend_lo_close fd (s : Backend W) :
  wf_backend s -> wf_backend (lo_close fd s).2.
Proof.
  intros [Hlen Hidle].
  destruct (check_fd_cases Flo_close fd s)
    as [(_ & E) | [(_ & _ & E) | (d & Hr & Hc & E)]].
  - unfold lo_close. by rewrite (bind_ElogERROR _ _ _ _ _ E).
  - unfold lo_close. by rewrite (bind_ElogERROR _ _ _ _ _ E).
  - destruct (lo_close fd s) as [[r| |] s1] eqn:Eclose.
    + apply lo_close_Returned in Eclose as (_ & d' & Hd' & _ & Htbl & Hfs & _).
      cbn [snd]. split.
      * unfold wf_table. by rewrite Htbl, length_insert.
      * rewrite Hfs. intros Hnone. rewrite (Hidle Hnone) in Hd'.
        by rewrite cookie_at_replicate in Hd'.
    + unfold lo_close in Eclose. by rewrite (bind_Returned _ _ _ _ _ E) in Eclose.
    + unfold lo_close in Eclose. by rewrite (bind_Returned _ _ _ _ _ E) in Eclose.
Qed.

Lemma wf_backend_lo_commit isCommit (s : Backend W) :
  wf_backend s -> wf_backend (lo_commit isCommit s).2.
Proof.
  intros Hwf. destruct (lo_commit_clears isCommit s Hwf) as (_ & Htbl & _).
  split; [|done]. unfold wf_table. by rewrite Htbl, length_replicate.
Qed.

Lemma wf_backend_run_op op (s : Backend W) : wf_backend s -> wf_backend (run_op op s).
Proof.
  destruct op; cbn [run_op];
    auto using wf_backend_lo_open, wf_backend_lo_close, wf_backend_lo_creat,
      wf_backend_lo_commit;
    apply wf_backend_frame.
  - apply frames_lo_read.
  - apply frames_lo_write.
  - apply frames_lo_lseek.
  - apply frames_lo_tell.
  - apply frames_lo_unlink.
  - apply frames_loread.
  - apply frames_lowrite.
  - apply frames_lo_import.
  - apply frames_lo_export.
Qed.

(** Every state a backend gets into is well formed. *)
Lemma wf_backend_run_ops ops : forall (s : Backend W),
  wf_backend s -> wf_backend (run_ops ops s).
Proof.
  induction ops as [|op ops IH]; intros s Hwf; [done|].
  cbn. apply IH. by apply wf_backend_run_op.
Qed.

(** The [Assert(fscxt != NULL)] of the descriptor-taking functions
    holds, whatever was called before. *)
Lemma wf_fscxt ops cur (w : W) fd d :
  let s := run_ops ops (initial cur w) in
  cookie_at (cookies s) fd = Some d -> fscxt s <> None.
Proof.
  intros s Hd Hnone.
  destruct (wf_backend_run_ops ops (initial cur w) (wf_backend_initial cur w)) as [_ Hidle].
  fold s in Hidle. rewrite (Hidle Hnone) in Hd. by rewrite cookie_at_replicate in Hd.
Qed.
End WellFormed.

(** ** The theorems on concrete states

    Each theorem above that has a premise, applied to a state reached
    by running the functions in the in-memory environment. *)

Lemma two_open_wf_table : wf_table (cookies Examples.two_open).
Proof. by vm_compute. Qed.

Lemma exhausted_wf_table : wf_table (cookies Examples.exhausted).
Proof. by vm_compute. Qed.

Lemma newLOfd_first_fit_witness :
  (exists i, (i < MAX_LOBJ_FDS)%nat /\
     cookie_at (cookies Examples.two_open) i = None /\
     (forall k, (k < i)%nat -> cookie_at (cookies Examples.two_open) k <> None) /\
     newLOfd_table 9%nat (cookies Examples.two_open)
       = (<[i := Some 9%nat]> (cookies Examples.two_open), Z.of_nat i) /\
     cookie_at (newLOfd_table 9%nat (cookies Examples.two_open)).1 i = Some 9%nat /\
     (forall k, k <> i ->
        cookie_at (newLOfd_table 9%nat (cookies Examples.two_open)).1 k
        = cookie_at (cookies Examples.two_open) k)) /\
  newLOfd_table 9%nat (cookies Examples.exhausted) = (cookies Examples.exhausted, -1).
Proof.
  destruct (newLOfd_first_fit (cookies Examples.two_open) 9%nat two_open_wf_table)
    as [Hfit _].
  destruct (newLOfd_first_fit (cookies Examples.exhausted) 9%nat exhausted_wf_table)
    as [_ Hfull].
  split.
  - apply Hfit. exists 2%nat. split; [unfold MAX_LOBJ_FDS; lia | by vm_compute].
  - exact (proj1 (Hfull exhausted_table_full)).
Defined.

Lemma bad_descriptor_rejected_witness :
  lo_read 256 10 Examples.two_open
    = (ElogERROR (DescriptorOutOfRange Flo_read 256), Examples.two_open) /\
  lo_tell 2 Examples.two_open
    = (ElogERROR (InvalidDescriptor Flo_tell 2), Examples.two_open) /\
  (forall r s1, lo_close 1 Examples.two_open = (Returned r, s1) ->
     lo_close 1 s1 = (ElogERROR (InvalidDescriptor Flo_close 1), s1)).
Proof.
  destruct (bad_descriptor_rejected Examples.two_open 256 10 0 0 []) as (Hrange & _ & _).
  destruct (bad_descriptor_rejected Examples.two_open 2 10 0 0 []) as (_ & Hinvalid & _).
  destruct (bad_descriptor_rejected Examples.two_open 1 10 0 0 []) as (_ & _ & Htwice).
  split; [|split].
  - destruct Hrange as (_ & Hread & _); [lia | exact Hread].
  - destruct Hinvalid as (_ & _ & _ & _ & Htell); [lia | by vm_compute | exact Htell].
  - exact Htwice.
Defined.

Lemma two_open_wf : wf_backend Examples.two_open.
Proof. split; [by vm_compute | discriminate]. Qed.

Lemma lo_commit_resets_witness :
  cookies (lo_commit false Examples.two_open).2 = replicate MAX_LOBJ_FDS None /\
  fscxt (lo_commit false Examples.two_open).2 = None.
Proof.
  destruct (lo_commit_resets false Examples.two_open two_open_wf)
    as (_ & Htbl & _ & Hfs & _).
  split; [exact Htbl | exact Hfs].
Defined.

Lemma two_open_fscxt : fscxt Examples.two_open = Some 100%nat.
Proof. by vm_compute. Qed.

Lemma lo_commit_cleanindex_witness :
  cleaned (calls_since Examples.two_open (lo_commit true Examples.two_open).2)
    = occupied (cookies Examples.two_open) /\
  cleaned (calls_since Examples.two_open (lo_commit false Examples.two_open).2) = [].
Proof.
  destruct (lo_commit_cleanindex true 100%nat Examples.two_open
              two_open_wf_table two_open_fscxt) as (_ & _ & Hcommit & _).
  destruct (lo_commit_cleanindex false 100%nat Examples.two_open
              two_open_wf_table two_open_fscxt) as (_ & _ & Habort & _).
  split; [exact Hcommit | exact Habort].
Defined.







(** * Further properties *)

(** ** Code that stays in its memory context *)

Lemma trace_refl {W} P (s : Backend W) : trace P s s.
Proof. repeat split. exists []. by rewrite app_nil_r. Qed.

Lemma trace_trans {W} P (s1 s2 s3 : Backend W) :
  trace P s1 s2 -> trace P s2 s3 -> trace P s1 s3.
Proof.
  intros (Ht & Hf & Hc & new & Hnew & Hall) (Ht' & Hf' & Hc' & new' & Hnew' & Hall').
  repeat split; [congruence | congruence | congruence |].
  exists (new ++ new'). split; [by rewrite Hnew', Hnew, <- app_assoc|].
  apply Forall_app. split; [done|]. by rewrite Hc in Hall'.
Qed.

Lemma trace_record {W} (P : Call -> bool) (c : Call) (s : Backend W) (w : W) :
  P c = true -> trace P s (record c s w).
Proof.
  intros Hc. repeat split. exists [(CurrentMemoryContext s, c)].
  split; [done|]. by repeat constructor.
Qed.

Lemma trace_weaken {W} (P Q : Call -> bool) (s s' : Backend W) :
  (forall c, P c = true -> Q c = true) -> trace P s s' -> trace Q s s'.
Proof.
  intros HPQ (Ht & Hf & Hc & new & Hnew & Hall). repeat split; try done.
  exists new. split; [done|]. eapply Forall_impl; [exact Hall|].
  intros c [Hcxt Hp]. auto.
Qed.

Lemma traced_ret {W A} P (a : A) : traced P (ret (W:=W) a).
Proof. intros s. apply trace_refl. Qed.

Lemma traced_elog_ERROR {W A} P msg : traced P (elog_ERROR (W:=W) (A:=A) msg).
Proof. intros s. apply trace_refl. Qed.

Lemma traced_out_of_fuel {W A} P : traced P (out_of_fuel (W:=W) (A:=A)).
Proof. intros s. apply trace_refl. Qed.

Lemma traced_ask {W A} P (f : W -> A) : traced P (ask f).
Proof. intros s. apply trace_refl. Qed.

Lemma traced_get_cookie {W} P i : traced P (get_cookie (W:=W) i).
Proof. intros s. apply trace_refl. Qed.

Lemma traced_call {W A} (P : Call -> bool) (f : W -> A * W) (ev : A -> Call) :
  (forall a, P (ev a) = true) -> traced P (call f ev).
Proof. intros Hev s. unfold call. destruct (f (world s)). by apply trace_record. Qed.

Lemma traced_call_ {W} (P : Call -> bool) (f : W -> W) (ev : Call) :
  P ev = true -> traced P (call_ f ev).
Proof. intros Hev s. by apply trace_record. Qed.

Lemma traced_bind {W A B} P (m : LO W A) (k : A -> LO W B) :
  traced P m -> (forall a, traced P (k a)) -> traced P (bind m k).
Proof.
  intros Hm Hk s. unfold bind. specialize (Hm s).
  destruct (m s) as [[a| |] s1]; cbn in *; [|done|done].
  eapply trace_trans; [exact Hm | apply Hk].
Qed.

(** Splits a monadic term along its binds and case distinctions, and
    checks the kind of each call. *)
Ltac traced_step :=
  match goal with
  | |- traced _ (bind _ _) => apply traced_bind; [|intros]
  | |- traced _ (call _ _) => apply traced_call; intros; reflexivity
  | |- traced _ (call_ _ _) => apply traced_call_; reflexivity
  | |- traced _ (ret _) => apply traced_ret
  | |- traced _ (elog_ERROR _) => apply traced_elog_ERROR
  | |- traced _ out_of_fuel => apply traced_out_of_fuel
  | |- traced _ (ask _) => apply traced_ask
  | |- traced _ (get_cookie _) => apply traced_get_cookie
  | |- traced _ (if ?b then _ else _) => destruct b
  | |- traced _ (match ?x with _ => _ end) => destruct x
  | H : _ |- traced _ _ => solve [apply H]
  end.

Ltac traced_auto := repeat traced_step.

Section Traced.
Context {W : Type} `{Environment W}.

Lemma traced_check_fd P f fd : traced P (check_fd (W:=W) f fd).
Proof. unfold check_fd. traced_auto. Qed.

Lemma traced_lo_tell fd : traced (fun c => true) (lo_tell (W:=W) fd).
Proof.
  unfold lo_tell. pose proof (traced_check_fd (fun _ => true)) as Hcheck. traced_auto.
Qed.

Lemma traced_lo_unlink lobjId : traced (fun c => true) (lo_unlink (W:=W) lobjId).
Proof. unfold lo_unlink. traced_auto. Qed.

Lemma traced_superuser_gate P f :
  (forall b, P (superuser_call b) = true) -> traced P (superuser_gate (W:=W) f).
Proof.
  intros Hsu. unfold superuser_gate. destruct ALLOW_DANGEROUS_LO_FUNCTIONS.
  - apply traced_ret.
  - apply traced_bind; [by apply traced_call|]. intros []; traced_auto.
Qed.

Lemma traced_lo_import_copy fuel fd lobj fnamebuf :
  traced is_import_copy_call (lo_import_copy (W:=W) fuel fd lobj fnamebuf).
Proof. induction fuel as [|fuel IH]; cbn [lo_import_copy]; traced_auto. Qed.

Lemma traced_lo_export_copy fuel fd lobj fnamebuf :
  traced is_export_copy_call (lo_export_copy (W:=W) fuel fd lobj fnamebuf).
Proof. induction fuel as [|fuel IH]; cbn [lo_export_copy]; traced_auto. Qed.

Lemma traced_weaken {A} (P Q : Call -> bool) (m : LO W A) :
  (forall c, P c = true -> Q c = true) -> traced P m -> traced Q m.
Proof. intros HPQ Hm s. eapply trace_weaken; [exact HPQ | apply Hm]. Qed.

Lemma traced_lo_import fuel filename :
  traced is_import_call (lo_import (W:=W) fuel filename).
Proof.
  unfold lo_import.
  assert (Hgate : traced is_import_call (superuser_gate (W:=W) Flo_import))
    by (by apply traced_superuser_gate).
  assert (Hcopy : forall fd lobj buf,
            traced is_import_call (lo_import_copy (W:=W) fuel fd lobj buf)).
  { intros. eapply traced_weaken; [|apply traced_lo_import_copy]. by intros []. }
  traced_auto.
Qed.

Lemma traced_lo_export fuel lobjId filename :
  traced is_export_call (lo_export (W:=W) fuel lobjId filename).
Proof.
  unfold lo_export.
  assert (Hgate : traced is_export_call (superuser_gate (W:=W) Flo_export))
    by (by apply traced_superuser_gate).
  assert (Hcopy : forall fd lobj buf,
            traced is_export_call (lo_export_copy (W:=W) fuel fd lobj buf)).
  { intros. eapply traced_weaken; [|apply traced_lo_export_copy]. by intros []. }
  traced_auto.
Qed.
End Traced.

(** ** Stream operations on a valid descriptor *)

Section Forwarding.
Context {W : Type} `{Environment W}.

(** The shape [lo_read], [lo_write] and [lo_lseek] share: check the
    descriptor, switch to the private context, call the store, switch
    back. *)
Lemma switched_call_valid {A} f fd d (F : LargeObjectDesc -> W -> A * W)
    (EV : LargeObjectDesc -> A -> Call) (s : Backend W) :
  lookup_fd s fd = Some d ->
  (d <- check_fd f fd ;;
   cxt <- get_fscxt ;;
   currentContext <- MemoryContextSwitchTo cxt ;;
   r <- call (F d) (EV d) ;;
   MemoryContextSwitchTo currentContext ;;;
   ret r) s =
  let '(r, w) := F d (world s) in
  (Returned r,
   mkBackend (cookies s) (fscxt s) (CurrentMemoryContext s) w
             (calls s ++ [(fscxt s, EV d r)])).
Proof.
  intros [Hr Hc]%lookup_fd_Some.
  rewrite (bind_Returned _ _ _ _ _ (check_fd_valid f fd d s Hr Hc)).
  cbn. unfold bind, call. cbn.
  by destruct (F d (world s)) as [r w].
Qed.

Lemma lo_write_valid (s : Backend W) fd buf len d :
  lookup_fd s fd = Some d ->
  lo_write fd buf len s =
    let '(r, w) := inv_write d buf len (world s) in
    (Returned r,
     mkBackend (cookies s) (fscxt s) (CurrentMemoryContext s) w
               (calls s ++ [(fscxt s, inv_write_call d buf len r)])).
Proof.
  intros Hd. unfold lo_write.
  exact (switched_call_valid Flo_write fd d (fun d => inv_write d buf len)
           (fun d => inv_write_call d buf len) s Hd).
Qed.

Lemma lo_lseek_valid (s : Backend W) fd offset whence d :
  lookup_fd s fd = Some d ->
  lo_lseek fd offset whence s =
    let '(r, w) := inv_seek d offset whence (world s) in
    (Returned r,
     mkBackend (cookies s) (fscxt s) (CurrentMemoryContext s) w
               (calls s ++ [(fscxt s, inv_seek_call d offset whence r)])).
Proof.
  intros Hd. unfold lo_lseek.
  exact (switched_call_valid Flo_lseek fd d (fun d => inv_seek d offset whence)
           (fun d => inv_seek_call d offset whence) s Hd).
Qed.

Lemma lo_tell_valid (s : Backend W) fd d :
  lookup_fd s fd = Some d ->
  lo_tell fd s =
    let '(r, w) := inv_tell d (world s) in
    (Returned r,
     mkBackend (cookies s) (fscxt s) (CurrentMemoryContext s) w
               (calls s ++ [(CurrentMemoryContext s, inv_tell_call d r)])).
Proof.
  intros [Hr Hc]%lookup_fd_Some. unfold lo_tell.
  rewrite (bind_Returned _ _ _ _ _ (check_fd_valid Flo_tell fd d s Hr Hc)).
  unfold call. by destruct (inv_tell d (world s)) as [r w].
Qed.

(** A descriptor that fails the checks stops the function where it
    is. *)
Lemma checked_invalid {A} f fd (k : LargeObjectDesc -> LO W A) (s : Backend W) :
  lookup_fd s fd = None -> ((d <- check_fd f fd ;; k d) s).2 = s.
Proof.
  intros Hl. destruct (lookup_fd_None s f fd Hl) as [msg Hmsg].
  by rewrite (bind_ElogERROR _ _ _ _ _ Hmsg).
Qed.
End Forwarding.

(** X1: a valid descriptor makes [lo_read], [lo_write] and [lo_lseek]
    one call each, to [inv_read], [inv_write] and [inv_seek] on the
    descriptor stored in the slot, with the caller's arguments and made
    in the private context; the store's result is returned as it is
    and the table, [fscxt] and the current context are left alone.
    [lo_tell] does the same with [inv_tell], in the caller's
    context. *)
Theorem stream_ops_forward {W : Type} `{Environment W}
    (s : Backend W) (fd : Z) (d : LargeObjectDesc) :
  lookup_fd s fd = Some d ->
  (forall len,
     lo_read fd len s =
       let '(r, w) := inv_read d len (world s) in
       (Returned r,
        mkBackend (cookies s) (fscxt s) (CurrentMemoryContext s) w
                  (calls s ++ [(fscxt s, inv_read_call d len r.1)]))) /\
  (forall buf len,
     lo_write fd buf len s =
       let '(r, w) := inv_write d buf len (world s) in
       (Returned r,
        mkBackend (cookies s) (fscxt s) (CurrentMemoryContext s) w
                  (calls s ++ [(fscxt s, inv_write_call d buf len r)]))) /\
  (forall offset whence,
     lo_lseek fd offset whence s =
       let '(r, w) := inv_seek d offset whence (world s) in
       (Returned r,
        mkBackend (cookies s) (fscxt s) (CurrentMemoryContext s) w
                  (calls s ++ [(fscxt s, inv_seek_call d offset whence r)]))) /\
  lo_tell fd s =
    (let '(r, w) := inv_tell d (world s) in
     (Returned r,
      mkBackend (cookies s) (fscxt s) (CurrentMemoryContext s) w
                (calls s ++ [(CurrentMemoryContext s, inv_tell_call d r)]))).
Proof.
  intros Hd. split; [|split; [|split]].
  - intros len. by apply lo_read_valid.
  - intros buf len. by apply lo_write_valid.
  - intros offset whence. by apply lo_lseek_valid.
  - by apply lo_tell_valid.
Qed.

(** ** The current memory context *)

Section Context.
Context {W : Type} `{Environment W}.

Lemma lo_open_context lobjId mode (s : Backend W) :
  CurrentMemoryContext (lo_open lobjId mode s).2 = CurrentMemoryContext s.
Proof.
  rewrite lo_open_unfold. cbn zeta.
  destruct (after_fscxt_create_frame s) as (_ & Hcur & _).
  by destruct (inv_open lobjId mode (world (after_fscxt_create s))) as [[d|] w].
Qed.

Lemma lo_creat_context mode (s : Backend W) :
  CurrentMemoryContext (lo_creat mode s).2 = CurrentMemoryContext s.
Proof.
  rewrite lo_creat_unfold. cbn zeta.
  destruct (after_fscxt_create_frame s) as (_ & Hcur & _).
  by destruct (inv_create mode (world (after_fscxt_create s))) as [[d|] w].
Qed.

Lemma lo_close_context fd (s : Backend W) :
  CurrentMemoryContext (lo_close fd s).2 = CurrentMemoryContext s.
Proof.
  destruct (lookup_fd s fd) as [d|] eqn:Hl.
  - destruct (lo_close fd s) as [[r| |] s1] eqn:Eclose.
    + by apply lo_close_Returned in Eclose as (_ & _ & _ & _ & _ & _ & Hcur & _).
    + apply lookup_fd_Some in Hl as [Hr Hc]. unfold lo_close in Eclose.
      by rewrite (bind_Returned _ _ _ _ _ (check_fd_valid _ _ _ _ Hr Hc)) in Eclose.
    + apply lookup_fd_Some in Hl as [Hr Hc]. unfold lo_close in Eclose.
      by rewrite (bind_Returned _ _ _ _ _ (check_fd_valid _ _ _ _ Hr Hc)) in Eclose.
  - unfold lo_close. by rewrite checked_invalid.
Qed.

Lemma lo_read_context fd len (s : Backend W) :
  CurrentMemoryContext (lo_read fd len s).2 = CurrentMemoryContext s.
Proof.
  destruct (lookup_fd s fd) as [d|] eqn:Hl.
  - rewrite (lo_read_valid s fd len d Hl). by destruct (inv_read d len (world s)).
  - unfold lo_read. by rewrite checked_invalid.
Qed.

Lemma lo_write_context fd buf len (s : Backend W) :
  CurrentMemoryContext (lo_write fd buf len s).2 = CurrentMemoryContext s.
Proof.
  destruct (lookup_fd s fd) as [d|] eqn:Hl.
  - rewrite (lo_write_valid s fd buf len d Hl). by destruct (inv_write d buf len (world s)).
  - unfold lo_write. by rewrite checked_invalid.
Qed.

Lemma lo_lseek_context fd offset whence (s : Backend W) :
  CurrentMemoryContext (lo_lseek fd offset whence s).2 = CurrentMemoryContext s.
Proof.
  destruct (lookup_fd s fd) as [d|] eqn:Hl.
  - rewrite (lo_lseek_valid s fd offset whence d Hl).
    by destruct (inv_seek d offset whence (world s)).
  - unfold lo_lseek. by rewrite checked_invalid.
Qed.

Lemma loread_context fd len (s : Backend W) :
  CurrentMemoryContext (loread fd len s).2 = CurrentMemoryContext s.
Proof.
  pose proof (loread_unfold s fd len) as Hun. cbn zeta in Hun.
  destruct (lookup_fd s fd) as [d|].
  - rewrite Hun. by destruct (inv_read d (loread_len len) _).
  - by destruct Hun as [msg ->].
Qed.

Lemma lo_commit_context isCommit (s : Backend W) :
  CurrentMemoryContext (lo_commit isCommit s).2 = CurrentMemoryContext s.
Proof.
  destruct (fscxt s) as [cxt|] eqn:E.
  - destruct (lo_commit_active isCommit cxt s E) as (s' & Hrun & _ & _ & _ & Hcur & _).
    by rewrite Hrun.
  - by rewrite (lo_commit_idle isCommit s E).
Qed.

Lemma traced_context {A} P (m : LO W A) (s : Backend W) :
  traced P m -> CurrentMemoryContext (m s).2 = CurrentMemoryContext s.
Proof. intros Hm. by destruct (Hm s) as (_ & _ & Hcur & _). Qed.
End Context.

(** X2: every entry point of the file, however it ends (a result, an
    [elog(ERROR)], or a copy loop that does not end), leaves the
    current memory context the one it was called in. *)
Theorem run_op_restores_context {W : Type} `{Environment W} (op : Op) (s : Backend W) :
  CurrentMemoryContext (run_op op s) = CurrentMemoryContext s.
Proof.
  destruct op; cbn [run_op].
  - apply lo_open_context.
  - apply lo_close_context.
  - apply lo_read_context.
  - apply lo_write_context.
  - apply lo_lseek_context.
  - apply lo_creat_context.
  - eapply traced_context, traced_lo_tell.
  - eapply traced_context, traced_lo_unlink.
  - apply loread_context.
  - unfold lowrite. apply lo_write_context.
  - eapply traced_context, traced_lo_import.
  - eapply traced_context, traced_lo_export.
  - apply lo_commit_context.
Qed.

(** ** Opening and closing descriptors *)

Lemma newLOfd_table_cases d tbl :
  (table_full tbl /\ newLOfd_table d tbl = (tbl, -1)) \/
  (exists j, (j < MAX_LOBJ_FDS)%nat /\ cookie_at tbl j = None /\
     (forall k, (k < j)%nat -> cookie_at tbl k <> None) /\
     newLOfd_table d tbl = (<[j := Some d]> tbl, Z.of_nat j)).
Proof.
  unfold newLOfd_table.
  destruct (lowest_empty tbl MAX_LOBJ_FDS 0) as [Hfull | (j & Hj & Hnone & Hbefore)].
  - left. split; [intros i Hi; apply Hfull; lia | by apply newLOfd_from_full].
  - right. exists j. split; [lia|]. split; [done|].
    split; [intros k Hk; apply Hbefore; lia | by apply newLOfd_from_found].
Qed.

Lemma lookup_fd_in_range {W} (s : Backend W) (fd : Z) :
  0 <= fd < Z.of_nat MAX_LOBJ_FDS -> lookup_fd s fd = cookie_at (cookies s) (Z.to_nat fd).
Proof.
  intros [Hlo Hhi]. unfold lookup_fd.
  rewrite (proj2 (Z.ltb_ge fd 0)) by done.
  rewrite Z.geb_leb, (proj2 (Z.leb_gt _ _)) by lia. done.
Qed.

Lemma lookup_fd_out_of_range {W} (s : Backend W) (fd : Z) :
  fd < 0 \/ Z.of_nat MAX_LOBJ_FDS <= fd -> lookup_fd s fd = None.
Proof.
  intros [Hlo|Hhi]; unfold lookup_fd.
  - by rewrite (proj2 (Z.ltb_lt fd 0)).
  - rewrite Z.geb_leb, (proj2 (Z.leb_le _ _)) by done. by rewrite orb_true_r.
Qed.

(** [lookup_fd] depends on the table only. *)
Lemma lookup_fd_cookies {W} (s s' : Backend W) fd :
  cookies s' = cookies s -> lookup_fd s' fd = lookup_fd s fd.
Proof. intros E. unfold lookup_fd. by rewrite E. Qed.

Lemma lookup_fd_insert {W} (s s' : Backend W) (j : nat) c (fd : Z) :
  cookies s' = <[j := c]> (cookies s) ->
  (j < length (cookies s))%nat ->
  (j < MAX_LOBJ_FDS)%nat ->
  lookup_fd s' fd = if decide (fd = Z.of_nat j) then c else lookup_fd s fd.
Proof.
  intros E Hj Hmax.
  destruct (decide (0 <= fd < Z.of_nat MAX_LOBJ_FDS)) as [Hr|Hr].
  - rewrite !lookup_fd_in_range by done. rewrite E. case_decide as Hfd.
    + subst fd. rewrite Nat2Z.id. by apply cookie_at_insert_eq.
    + apply cookie_at_insert_ne. lia.
  - rewrite !lookup_fd_out_of_range by lia. case_decide; [lia | done].
Qed.

(** X3: on a table of 256 entries, a [lo_open] that returns a
    descriptor [fd >= 0] got a store descriptor from [inv_open], took
    the lowest empty slot (so [fd] was not a valid descriptor before,
    and every smaller one was) and stored the store descriptor there;
    every other descriptor means what it meant before, and the private
    context exists. *)
Theorem lo_open_registers {W : Type} `{Environment W}
    (s : Backend W) (lobjId : Oid) (mode fd : Z) :
  wf_table (cookies s) ->
  (lo_open lobjId mode s).1 = Returned fd ->
  0 <= fd ->
  let s' := (lo_open lobjId mode s).2 in
  exists d,
    (inv_open lobjId mode (world (after_fscxt_create s))).1 = Some d /\
    fd < 256 /\
    lookup_fd s fd = None /\
    (forall k, 0 <= k < fd -> lookup_fd s k <> None) /\
    lookup_fd s' fd = Some d /\
    (forall k, k <> fd -> lookup_fd s' k = lookup_fd s k) /\
    fscxt s' <> None.
Proof.
  intros Hlen. rewrite lo_open_unfold. cbn zeta.
  destruct (after_fscxt_create_frame s) as (Htbl & _ & Hfs).
  destruct (inv_open lobjId mode (world (after_fscxt_create s))) as [[d|] w];
    cbn [fst snd]; [|intros [= <-]; lia].
  rewrite Htbl.
  destruct (newLOfd_table_cases d (cookies s))
    as [[_ ->] | (j & Hj & Hnone & Hbefore & ->)]; cbn [fst snd];
    intros [= <-]; [lia|]. intros _.
  unfold wf_table in Hlen.
  assert (Hjr : 0 <= Z.of_nat j < Z.of_nat MAX_LOBJ_FDS) by lia.
  exists d. split; [done|]. split; [unfold MAX_LOBJ_FDS in Hj; lia|].
  split; [by rewrite lookup_fd_in_range, Nat2Z.id|]. split.
  { intros k Hk. rewrite lookup_fd_in_range by lia. apply Hbefore. lia. }
  split.
  { erewrite lookup_fd_insert; [|reflexivity|cbn; lia|done]. by case_decide. }
  split; [|done].
  intros k Hk. erewrite lookup_fd_insert; [|reflexivity|cbn; lia|done]. by case_decide.
Qed.

(** X4: on a table of 256 entries, a [lo_close] of the descriptor a
    [lo_open] has just returned succeeds with 0, hands [inv_close] the
    store descriptor [inv_open] gave, in the private context, and
    makes the table what it was before the [lo_open]; the private
    context stays. *)
Theorem lo_open_lo_close {W : Type} `{Environment W}
    (s : Backend W) (lobjId : Oid) (mode fd : Z) :
  wf_table (cookies s) ->
  (lo_open lobjId mode s).1 = Returned fd ->
  0 <= fd ->
  let s1 := (lo_open lobjId mode s).2 in
  let s2 := (lo_close fd s1).2 in
  exists d,
    (inv_open lobjId mode (world (after_fscxt_create s))).1 = Some d /\
    (lo_close fd s1).1 = Returned 0 /\
    cookies s2 = cookies s /\
    fscxt s2 = fscxt s1 /\
    world s2 = inv_close d (world s1) /\
    calls s2 = calls s1 ++ [(fscxt s1, inv_close_call d)].
Proof.
  intros Hlen. unfold wf_table in Hlen. rewrite lo_open_unfold. cbn zeta.
  destruct (after_fscxt_create_frame s) as (Htbl & _ & Hfs).
  destruct (inv_open lobjId mode (world (after_fscxt_create s))) as [[d|] w];
    cbn [fst snd]; [|intros [= <-]; lia].
  rewrite Htbl.
  destruct (newLOfd_table_cases d (cookies s))
    as [[_ ->] | (j & Hj & Hnone & Hbefore & ->)]; cbn [fst snd];
    intros [= <-]; [lia|]. intros _.
  set (s1 := mkBackend _ _ _ _ _).
  assert (Hr : 0 <= Z.of_nat j < Z.of_nat MAX_LOBJ_FDS) by lia.
  assert (Hc : cookie_at (cookies s1) (Z.to_nat (Z.of_nat j)) = Some d).
  { rewrite Nat2Z.id. subst s1. cbn. apply cookie_at_insert_eq. lia. }
  exists d. split; [done|]. unfold lo_close.
  rewrite (bind_Returned _ _ _ _ _ (check_fd_valid Flo_close _ d s1 Hr Hc)).
  cbn. rewrite Nat2Z.id. unfold deleteLOfd_table.
  rewrite list_insert_insert_eq. split; [done|]. split; [|done].
  apply list_insert_id. unfold cookie_at in Hnone.
  destruct (cookies s !! j) as [c|] eqn:E; [by subst c|].
  apply lookup_ge_None_1 in E. lia.
Qed.

(** X5: after [lo_close fd], however it ended, [fd] is not a valid
    descriptor, and every other descriptor means what it meant
    before; [fscxt] is as it was. *)
Theorem lo_close_one_slot {W : Type} `{Environment W} (s : Backend W) (fd : Z) :
  let s' := (lo_close fd s).2 in
  lookup_fd s' fd = None /\
  (forall fd', fd' <> fd -> lookup_fd s' fd' = lookup_fd s fd') /\
  fscxt s' = fscxt s.
Proof.
  intros s'. subst s'.
  destruct (lookup_fd s fd) as [d|] eqn:Hl.
  - pose proof Hl as [Hr Hc]%lookup_fd_Some. unfold lo_close.
    rewrite (bind_Returned _ _ _ _ _ (check_fd_valid Flo_close fd d s Hr Hc)).
    cbn [bind get_fscxt MemoryContextSwitchTo call_ deleteLOfd ret record snd fst].
    set (s' := mkBackend _ _ _ _ _).
    assert (Htbl : cookies s' = <[Z.to_nat fd := None]> (cookies s)) by done.
    pose proof (cookie_at_Some _ _ _ Hc) as Hlt.
    assert (Hmax : (Z.to_nat fd < MAX_LOBJ_FDS)%nat) by lia.
    split; [|split; [|done]].
    + rewrite (lookup_fd_insert s s' _ _ fd Htbl Hlt Hmax). case_decide; [done | lia].
    + intros fd' Hne. rewrite (lookup_fd_insert s s' _ _ fd' Htbl Hlt Hmax).
      case_decide; [lia | done].
  - unfold lo_close. by rewrite checked_invalid.
Qed.

(** X6: [lo_open] never raises an error.  It returns a number from -1
    to 255, and -1 exactly when the store turned the open down or no
    slot of the table was free. *)
Theorem lo_open_result {W : Type} `{Environment W}
    (s : Backend W) (lobjId : Oid) (mode : Z) :
  exists r, (lo_open lobjId mode s).1 = Returned r /\
    -1 <= r < 256 /\
    (r = -1 <-> store_rejects s lobjId mode \/ table_full (cookies s)).
Proof.
  unfold store_rejects. rewrite lo_open_unfold. cbn zeta.
  destruct (after_fscxt_create_frame s) as (Htbl & _ & _).
  destruct (inv_open lobjId mode (world (after_fscxt_create s))) as [[d|] w];
    cbn [fst snd].
  - rewrite Htbl.
    destruct (newLOfd_table_cases d (cookies s))
      as [[Hfull ->] | (j & Hj & Hnone & Hbefore & ->)]; cbn [fst snd].
    + exists (-1). split; [done|]. split; [lia|]. split; auto.
    + exists (Z.of_nat j). split; [done|]. split; [unfold MAX_LOBJ_FDS in Hj; lia|].
      split; [lia|]. intros [Hrej | Hfull]; [done|]. by apply Hfull in Hnone.
  - exists (-1). split; [done|]. split; [lia|]. split; auto.
Qed.

(** ** Import and export, step by step *)

Section Unfold.
Context {W : Type} `{Environment W}.

Lemma superuser_gate_unfold f (s : Backend W) :
  superuser_gate f s =
    if ALLOW_DANGEROUS_LO_FUNCTIONS then (Returned tt, s)
    else
      let s1 := record (superuser_call (superuser (world s))) s (world s) in
      if superuser (world s) then (Returned tt, s1)
      else (ElogERROR (MustBeSuperuser f), s1).
Proof.
  unfold superuser_gate. destruct ALLOW_DANGEROUS_LO_FUNCTIONS; [done|].
  rewrite bind_call. cbn [fst snd]. by destruct (superuser (world s)).
Qed.

Lemma superuser_gate_outcome f (s : Backend W) :
  (superuser_gate f s).1 = Returned tt \/
  ((superuser_gate f s).1 = ElogERROR (MustBeSuperuser f) /\
   ALLOW_DANGEROUS_LO_FUNCTIONS = false /\ superuser (world s) = false).
Proof.
  rewrite superuser_gate_unfold. destruct ALLOW_DANGEROUS_LO_FUNCTIONS; [by left|].
  cbn zeta. destruct (superuser (world s)); [by left | by right].
Qed.


End Unfold.

(** ** Copying out in chunks *)

Lemma no_short_file_write {W} (s s' : Backend W) new :
  calls s' = calls s ++ new ->
  forallb (fun c => negb (short_file_write c)) new = true ->
  ~ exists c, c ∈ calls_since s s' /\ short_file_write c = true.
Proof.
  intros Hnew Hall (c & Hc & Hs). rewrite (calls_since_app _ _ _ Hnew) in Hc.
  rewrite forallb_forall in Hall. apply list_elem_of_In, Hall in Hc. by rewrite Hs in Hc.
Qed.

Section ExportCopy.
Context {W : Type} `{Environment W}.
Variables (fd : File) (lobj : LargeObjectDesc) (fnamebuf : list Byte.byte).

(** One turn of the loop. *)
Lemma lo_export_copy_S fuel (s : Backend W) :
  lo_export_copy (S fuel) fd lobj fnamebuf s =
    let r := inv_read lobj (Z.of_nat BUFSIZE) (world s) in
    let s1 := record (inv_read_call lobj (Z.of_nat BUFSIZE) r.1.1) s r.2 in
    if r.1.1 >? 0 then
      let t := FileWrite fd r.1.2 r.1.1 (world s1) in
      let s2 := record (FileWrite_call fd r.1.2 r.1.1 t.1) s1 t.2 in
      if t.1 <? r.1.1 then (ElogERROR (ErrorWhileWriting (c_string fnamebuf)), s2)
      else lo_export_copy fuel fd lobj fnamebuf s2
    else (Returned tt, s1).
Proof.
  cbn [lo_export_copy]. rewrite bind_call. cbn zeta.
  destruct (inv_read lobj (Z.of_nat BUFSIZE) (world s)) as [[n buf] w]. cbn [fst snd].
  destruct (n >? 0); [|done]. rewrite bind_call. cbn [fst snd world record].
  by destruct (_ <? n).
Qed.

(** How the loop ends, read off the calls it made. *)
Lemma lo_export_copy_outcome fuel : forall (s : Backend W),
  exists new, calls (lo_export_copy fuel fd lobj fnamebuf s).2 = calls s ++ new /\
    match (lo_export_copy fuel fd lobj fnamebuf s).1 with
    | ElogERROR msg =>
        msg = ErrorWhileWriting (c_string fnamebuf) /\
        exists front last, new = front ++ [last] /\ short_file_write last = true /\
          forallb (fun c => negb (short_file_write c)) front = true
    | _ => forallb (fun c => negb (short_file_write c)) new = true
    end.
Proof.
  induction fuel as [|fuel IH]; intros s.
  { exists []. cbn. by rewrite app_nil_r. }
  rewrite lo_export_copy_S. cbn zeta.
  set (r := inv_read lobj (Z.of_nat BUFSIZE) (world s)).
  set (s1 := record _ s r.2).
  destruct (r.1.1 >? 0); [|by exists [(CurrentMemoryContext s,
                                       inv_read_call lobj (Z.of_nat BUFSIZE) r.1.1)]].
  set (t := FileWrite fd r.1.2 r.1.1 (world s1)).
  set (s2 := record _ s1 t.2).
  set (rd := (CurrentMemoryContext s, inv_read_call lobj (Z.of_nat BUFSIZE) r.1.1)).
  set (wr := (CurrentMemoryContext s, FileWrite_call fd r.1.2 r.1.1 t.1)).
  assert (Hs2 : calls s2 = calls s ++ [rd; wr]) by (cbn; by rewrite <- app_assoc).
  destruct (t.1 <? r.1.1) eqn:Hshort.
  - exists [rd; wr]. split; [done|]. cbn [fst]. split; [done|].
    exists [rd], wr. by repeat split.
  - destruct (IH s2) as (new & Hnew & Hout).
    exists ([rd; wr] ++ new). split; [by rewrite Hnew, Hs2, <- app_assoc|].
    assert (Hok : forallb (fun c => negb (short_file_write c)) [rd; wr] = true).
    { cbn. by rewrite Hshort. }
    destruct (lo_export_copy fuel fd lobj fnamebuf s2).1 as [[]|msg|].
    + by rewrite forallb_app, Hok, Hout.
    + destruct Hout as (Hmsg & front & last & Hfront & Hlast & Hearlier).
      split; [done|]. exists ([rd; wr] ++ front), last.
      split; [by rewrite Hfront, <- app_assoc|]. split; [done|].
      by rewrite forallb_app, Hok, Hearlier.
    + by rewrite forallb_app, Hok, Hout.
Qed.

Lemma lo_export_copy_short_write fuel (s : Backend W) :
  (exists c, c ∈ calls_since s (lo_export_copy fuel fd lobj fnamebuf s).2 /\
             short_file_write c = true) <->
  (lo_export_copy fuel fd lobj fnamebuf s).1 = ElogERROR (ErrorWhileWriting (c_string fnamebuf)).
Proof.
  destruct (lo_export_copy_outcome fuel s) as (new & Hnew & Hout).
  rewrite (calls_since_app _ _ _ Hnew).
  assert (Hnone : forallb (fun c => negb (short_file_write c)) new = true ->
                  ~ exists c, c ∈ new /\ short_file_write c = true).
  { intros Hall (c & Hc & Hs). rewrite forallb_forall in Hall.
    apply list_elem_of_In, Hall in Hc. by rewrite Hs in Hc. }
  destruct (lo_export_copy fuel fd lobj fnamebuf s).1 as [[]|msg|].
  - split; [by intros ?%Hnone | done].
  - destruct Hout as (-> & front & last & -> & Hlast & _).
    split; [done|]. intros _. exists last. split; [|done].
    apply elem_of_app. right. by apply list_elem_of_singleton.
  - split; [by intros ?%Hnone | done].
Qed.

(** [unread w l]: in world [w] the bytes of the object not yet read
    through [lobj] are [l].  The store hands them out in full chunks,
    and the file takes every byte it is given without touching the
    object. *)
Variable unread : W -> list Byte.byte -> Prop.
Hypothesis inv_read_chunk : forall w l,
  unread w l ->
  (inv_read lobj (Z.of_nat BUFSIZE) w).1 =
    (Z.of_nat (length (take BUFSIZE l)), take BUFSIZE l) /\
  unread (inv_read lobj (Z.of_nat BUFSIZE) w).2 (drop BUFSIZE l).
Hypothesis FileWrite_full : forall w l (chunk : list Byte.byte),
  unread w l ->
  Z.of_nat (length chunk) <= (FileWrite fd chunk (Z.of_nat (length chunk)) w).1 /\
  unread (FileWrite fd chunk (Z.of_nat (length chunk)) w).2 l.

Lemma file_write_of_chunk cxt (chunk : list Byte.byte) r :
  file_write_of fd (cxt, FileWrite_call fd chunk (Z.of_nat (length chunk)) r) = Some chunk.
Proof.
  unfold file_write_of. cbn. rewrite Z.eqb_refl, Nat2Z.id. by rewrite firstn_all.
Qed.

Lemma lo_export_copy_full fuel : forall (s : Backend W) content,
  unread (world s) content ->
  (length (chunks BUFSIZE content) < fuel)%nat ->
  (lo_export_copy fuel fd lobj fnamebuf s).1 = Returned tt /\
  file_written fd (calls_since s (lo_export_copy fuel fd lobj fnamebuf s).2)
    = chunks BUFSIZE content /\
  unread (world (lo_export_copy fuel fd lobj fnamebuf s).2) [].
Proof.
  induction fuel as [|fuel IH]; intros s content Hcontent Hfuel; [lia|].
  rewrite lo_export_copy_S. cbn zeta.
  destruct (inv_read_chunk (world s) content Hcontent) as [Hr Hadv].
  destruct (inv_read lobj (Z.of_nat BUFSIZE) (world s)) as [[n buf] w].
  cbn [fst snd] in *. injection Hr as -> ->.
  set (chunk := take BUFSIZE content) in *.
  set (s1 := record _ s w).
  destruct (decide (content = [])) as [Hnil|Hsome].
  - assert (Hchunk : chunk = []) by (subst chunk; by rewrite Hnil).
    assert (Hz : (Z.of_nat (length chunk) >? 0) = false) by (by rewrite Hchunk).
    rewrite Hz. cbn [fst snd]. split; [done|]. split.
    + rewrite (calls_since_app s s1 [(CurrentMemoryContext s,
                 inv_read_call lobj (Z.of_nat BUFSIZE) (Z.of_nat (length chunk)))]) by done.
      by rewrite Hnil.
    + subst s1. cbn. by rewrite Hnil in Hadv.
  - assert (Hn : (0 < BUFSIZE)%nat) by (unfold BUFSIZE; lia).
    assert (Hlen : (0 < length chunk)%nat).
    { subst chunk. rewrite length_take. destruct content; [done | cbn; lia]. }
    rewrite (proj2 (Z.gtb_gt _ _)) by lia.
    destruct (FileWrite_full w _ chunk Hadv) as [Hfull Hun].
    change (world s1) with w.
    set (t := FileWrite fd chunk (Z.of_nat (length chunk)) w) in *.
    set (s2 := record _ s1 t.2).
    assert (Hge : (t.1 <? Z.of_nat (length chunk)) = false) by (by apply Z.ltb_ge).
    rewrite Hge.
    rewrite chunks_cons in Hfuel |- * by done. fold chunk in Hfuel |- *.
    destruct (IH s2 (drop BUFSIZE content)) as (Hret & Hwritten & Hend).
    { done. }
    { cbn [length] in Hfuel. lia. }
    split; [done|]. split; [|done].
    destruct (frames_lo_export_copy fuel fd lobj fnamebuf s2) as (_ & _ & [new Hnew]).
    rewrite (calls_since_app _ _ _ Hnew) in Hwritten.
    rewrite (calls_since_app s _
               ([(CurrentMemoryContext s,
                  inv_read_call lobj (Z.of_nat BUFSIZE) (Z.of_nat (length chunk)));
                 (CurrentMemoryContext s,
                  FileWrite_call fd chunk (Z.of_nat (length chunk)) t.1)] ++ new)).
    2: { rewrite Hnew. subst s2 s1. cbn. by rewrite <- !app_assoc. }
    unfold file_written in *. rewrite omap_app. cbn [omap list_omap].
    change (file_write_of fd (_, inv_read_call _ _ _)) with (@None (list Byte.byte)).
    cbv iota. rewrite file_write_of_chunk. cbn [app]. by rewrite Hwritten.
Qed.
End ExportCopy.

(** X7: [lo_export] asks the store for 1024 bytes of the object at a
    time and hands each chunk it gets to the file.  For a store that
    hands the object out in full chunks and a file that takes all it is
    given, the loop returns (given fuel for one turn more than there
    are chunks) having written the object in pieces of exactly 1024
    bytes, the last piece holding the remainder, which together are the
    object.  Whatever the store and the file do, the loop ends in the
    copy error exactly when one of its file writes stored fewer bytes
    than the chunk holds. *)
Theorem lo_export_copy_chunks {W : Type} `{Environment W}
    (fd : File) (lobj : LargeObjectDesc) (fnamebuf : list Byte.byte)
    (unread : W -> list Byte.byte -> Prop) :
  (forall w l, unread w l ->
     (inv_read lobj (Z.of_nat BUFSIZE) w).1 =
       (Z.of_nat (length (take BUFSIZE l)), take BUFSIZE l) /\
     unread (inv_read lobj (Z.of_nat BUFSIZE) w).2 (drop BUFSIZE l)) ->
  (forall w l (chunk : list Byte.byte), unread w l ->
     Z.of_nat (length chunk) <= (FileWrite fd chunk (Z.of_nat (length chunk)) w).1 /\
     unread (FileWrite fd chunk (Z.of_nat (length chunk)) w).2 l) ->
  forall (s : Backend W) (content : list Byte.byte) (fuel : nat),
    unread (world s) content ->
    (length (chunks BUFSIZE content) < fuel)%nat ->
    let r := lo_export_copy fuel fd lobj fnamebuf s in
    let pieces := file_written fd (calls_since s r.2) in
    r.1 = Returned tt /\
    concat pieces = content /\
    length <$> pieces =
      replicate (length content / BUFSIZE) BUFSIZE ++
      (if (length content mod BUFSIZE =? 0)%nat then []
       else [(length content mod BUFSIZE)%nat]) /\
    unread (world r.2) [] /\
    (forall s' fuel',
       (exists c, c ∈ calls_since s' (lo_export_copy fuel' fd lobj fnamebuf s').2 /\
                  short_file_write c = true) <->
       (lo_export_copy fuel' fd lobj fnamebuf s').1 =
         ElogERROR (ErrorWhileWriting (c_string fnamebuf))).
Proof.
  intros Hread Hwrite s content fuel Hcontent Hfuel r pieces.
  destruct (lo_export_copy_full fd lobj fnamebuf unread Hread Hwrite fuel s content
              Hcontent Hfuel) as (Hret & Hwritten & Hend).
  fold r in Hret, Hwritten, Hend. fold pieces in Hwritten.
  assert (Hn : (0 < BUFSIZE)%nat) by (unfold BUFSIZE; lia).
  split; [done|]. split.
  { rewrite Hwritten. by apply concat_chunks. }
  split.
  { rewrite Hwritten. by apply chunks_lengths. }
  split; [done|].
  intros s' fuel'. apply lo_export_copy_short_write.
Qed.

(** ** The runs of [lo_import] and [lo_export] *)

Section Runs.
Context {W : Type} `{Environment W}.



End Runs.



(** ** What each entry point may change *)

(** X10: only [lo_open], [lo_close] and [lo_commit] change the table of
    descriptors, and only [lo_open], [lo_creat] and [lo_commit] change
    [fscxt]; every other entry point, however it ends, leaves them as
    they were.  In particular [lo_import], [lo_export] and [lo_unlink]
    never register or release a descriptor. *)
Theorem run_op_frame {W : Type} `{Environment W} (op : Op) (s : Backend W) :
  match op with
  | Op_lo_open _ _ | Op_lo_close _ | Op_lo_commit _ => True
  | _ => cookies (run_op op s) = cookies s
  end /\
  match op with
  | Op_lo_open _ _ | Op_lo_creat _ | Op_lo_commit _ => True
  | _ => fscxt (run_op op s) = fscxt s
  end.
Proof.
  assert (Hframes : forall A (m : LO W A), frames m ->
            cookies (m s).2 = cookies s /\ fscxt (m s).2 = fscxt s).
  { intros A m Hm. destruct (Hm s) as (Htbl & Hfs & _). done. }
  destruct op; cbn [run_op]; try done.
  - split; [done|]. destruct (lookup_fd s fd) as [d|] eqn:Hl.
    + destruct (lo_close fd s) as [[r| |] s1] eqn:Eclose.
      * by apply lo_close_Returned in Eclose as (_ & _ & _ & _ & _ & Hfs & _).
      * apply lookup_fd_Some in Hl as [Hr Hc]. unfold lo_close in Eclose.
        by rewrite (bind_Returned _ _ _ _ _ (check_fd_valid _ _ _ _ Hr Hc)) in Eclose.
      * apply lookup_fd_Some in Hl as [Hr Hc]. unfold lo_close in Eclose.
        by rewrite (bind_Returned _ _ _ _ _ (check_fd_valid _ _ _ _ Hr Hc)) in Eclose.
    + unfold lo_close. by rewrite checked_invalid.
  - apply Hframes, frames_lo_read.
  - apply Hframes, frames_lo_write.
  - apply Hframes, frames_lo_lseek.
  - split; [|done]. rewrite lo_creat_unfold. cbn zeta.
    destruct (after_fscxt_create_frame s) as (Htbl & _ & _).
    by destruct (inv_create mode (world (after_fscxt_create s))) as [[d|] w].
  - apply Hframes, frames_lo_tell.
  - apply Hframes, frames_lo_unlink.
  - apply Hframes, frames_loread.
  - apply Hframes, frames_lowrite.
  - apply Hframes, frames_lo_import.
  - apply Hframes, frames_lo_export.
Qed.

(** ** Dropping an object *)

(** X11: [lo_unlink] makes the one call [inv_drop], in the caller's
    context, and returns its result.  It does not look at the table:
    every descriptor means afterwards what it meant before, also one
    that is open on the dropped object, so a [lo_read] through it
    still goes to the store with the same store descriptor. *)
Theorem lo_unlink_keeps_descriptors {W : Type} `{Environment W}
    (s : Backend W) (lobjId : Oid) :
  let r := inv_drop lobjId (world s) in
  let s' := (lo_unlink lobjId s).2 in
  lo_unlink lobjId s = (Returned r.1, record (inv_drop_call lobjId r.1) s r.2) /\
  (forall fd, lookup_fd s' fd = lookup_fd s fd) /\
  (forall fd d len, lookup_fd s fd = Some d ->
     (lo_read fd len s').1 = Returned (inv_read d len r.2).1 /\
     calls_since s' (lo_read fd len s').2 =
       [(fscxt s, inv_read_call d len (inv_read d len r.2).1.1)]).
Proof.
  intros r s'.
  assert (Hrun : lo_unlink lobjId s = (Returned r.1, record (inv_drop_call lobjId r.1) s r.2)).
  { unfold lo_unlink, call. subst r. by destruct (inv_drop lobjId (world s)). }
  subst s'. rewrite Hrun. cbn [snd]. split; [done|]. split; [done|].
  intros fd d len Hd.
  rewrite (lo_read_valid (record (inv_drop_call lobjId r.1) s r.2) fd len d Hd).
  cbn [world record fscxt]. unfold calls_since.
  destruct (inv_read d len r.2) as [res w]. cbn [fst snd calls]. split; [done|].
  by rewrite drop_app_length.
Qed.

(** ** The private context *)

(** X12: [lo_open] and [lo_creat] create the private context only when
    there is none.  With [fscxt] set they leave it as it is and go
    straight to the store, in that context.  With [fscxt] [NULL] their
    first call is the [AllocSetContextCreate] of a child of
    [TopMemoryContext] named "Filesystem", made in the caller's
    context; [fscxt] becomes the new context and the store is called in
    it. *)
Theorem fscxt_created_when_absent {W : Type} `{Environment W}
    (s : Backend W) (lobjId : Oid) (mode : Z) :
  let creat_calls (cxt : MemoryContext) (r : option LargeObjectDesc) :=
    (Some cxt, inv_create_call mode r) ::
    match r with Some d => [(Some cxt, inv_close_call d)] | None => [] end in
  (forall cxt, fscxt s = Some cxt ->
     fscxt (lo_open lobjId mode s).2 = Some cxt /\
     calls_since s (lo_open lobjId mode s).2 =
       [(Some cxt, inv_open_call lobjId mode (inv_open lobjId mode (world s)).1)] /\
     fscxt (lo_creat mode s).2 = Some cxt /\
     calls_since s (lo_creat mode s).2 = creat_calls cxt (inv_create mode (world s)).1) /\
  (fscxt s = None ->
     let a := AllocSetContextCreate TopMemoryContext "Filesystem" (world s) in
     let created :=
       (CurrentMemoryContext s,
        AllocSetContextCreate_call TopMemoryContext "Filesystem" a.1) in
     fscxt (lo_open lobjId mode s).2 = Some a.1 /\
     calls_since s (lo_open lobjId mode s).2 =
       [created; (Some a.1, inv_open_call lobjId mode (inv_open lobjId mode a.2).1)] /\
     fscxt (lo_creat mode s).2 = Some a.1 /\
     calls_since s (lo_creat mode s).2 = created :: creat_calls a.1 (inv_create mode a.2).1).
Proof.
  intros creat_calls. split.
  - intros cxt E. rewrite lo_open_unfold, lo_creat_unfold. cbn zeta.
    rewrite (after_fscxt_create_Some s cxt E), E.
    destruct (inv_open lobjId mode (world s)) as [[d|] w];
      destruct (inv_create mode (world s)) as [[d'|] w'];
      cbn; unfold calls_since; cbn; by rewrite !drop_app_length.
  - intros E a created. subst a created.
    rewrite lo_open_unfold, lo_creat_unfold. cbn zeta.
    rewrite (after_fscxt_create_None s E).
    destruct (AllocSetContextCreate TopMemoryContext "Filesystem" (world s)) as [cxt w0].
    cbn.
    destruct (inv_open lobjId mode w0) as [[d|] w];
      destruct (inv_create mode w0) as [[d'|] w'];
      cbn; unfold calls_since; cbn;
      rewrite <- !app_assoc; by rewrite !drop_app_length.
Qed.

(** ** Every state a backend gets into *)

(** X13: whatever entry points were called, with whatever arguments
    and outcomes, since the backend started: the table has 256
    entries, a slot holds a descriptor only while the private context
    exists (the [Assert(fscxt != NULL)] of [lo_close], [lo_read],
    [lo_write] and [lo_lseek] cannot fail), and with [fscxt] [NULL] no
    descriptor is valid. *)
Theorem run_ops_invariant {W : Type} `{Environment W}
    (ops : list Op) (cur : option MemoryContext) (w : W) :
  let s := run_ops ops (initial cur w) in
  length (cookies s) = 256%nat /\
  (forall fd d, lookup_fd s fd = Some d -> fscxt s <> None) /\
  (fscxt s = None -> forall fd, lookup_fd s fd = None).
Proof.
  intros s.
  destruct (wf_backend_run_ops ops (initial cur w) (wf_backend_initial cur w))
    as [Hlen Hidle].
  fold s in Hlen, Hidle.
  assert (Hnone : fscxt s = None -> forall fd, lookup_fd s fd = None).
  { intros E fd. unfold lookup_fd. rewrite (Hidle E), cookie_at_replicate.
    by destruct (_ || _). }
  split; [exact Hlen|]. split; [|done].
  intros fd d Hd E. by rewrite (Hnone E) in Hd.
Qed.

(** ** The bytea wrappers *)



(** ** Two commits *)

(** X15: after [lo_commit], with either flag and from any state,
    [fscxt] is [NULL], so a second [lo_commit] returns at once: it
    makes no call and changes nothing.  The private context is deleted
    at most once. *)
Theorem lo_commit_twice {W : Type} `{Environment W} (b1 b2 : bool) (s : Backend W) :
  (lo_commit b1 s).1 = Returned tt /\
  fscxt (lo_commit b1 s).2 = None /\
  lo_commit b2 (lo_commit b1 s).2 = (Returned tt, (lo_commit b1 s).2).
Proof.
  assert (Hfirst : (lo_commit b1 s).1 = Returned tt /\ fscxt (lo_commit b1 s).2 = None).
  { destruct (fscxt s) as [cxt|] eqn:E.
    - destruct (lo_commit_active b1 cxt s E) as (s' & Hrun & _ & _ & Hfs & _).
      by rewrite Hrun.
    - by rewrite (lo_commit_idle b1 s E). }
  destruct Hfirst as [Hret Hfs]. split; [done|]. split; [done|].
  by apply lo_commit_idle.
Qed.

(** ** Filling the table *)

Lemma cookie_at_filled (pre : list LargeObjectDesc) n i :
  cookie_at ((Some <$> pre) ++ replicate n None) i = pre !! i.
Proof.
  unfold cookie_at. destruct (decide (i < length pre)%nat) as [Hlt|Hge].
  - rewrite lookup_app_l by (by rewrite length_fmap).
    rewrite list_lookup_fmap. by destruct (pre !! i).
  - rewrite lookup_app_r by (rewrite length_fmap; lia).
    rewrite (lookup_ge_None_2 pre) by lia.
    destruct (replicate n None !! _) as [c|] eqn:E; [|done].
    apply lookup_replicate in E. tauto.
Qed.

Lemma newLOfd_table_filled (pre : list LargeObjectDesc) d :
  (length pre < MAX_LOBJ_FDS)%nat ->
  newLOfd_table d ((Some <$> pre) ++ replicate (MAX_LOBJ_FDS - length pre) None) =
    ((Some <$> (pre ++ [d])) ++ replicate (MAX_LOBJ_FDS - length (pre ++ [d])) None,
     Z.of_nat (length pre)).
Proof.
  intros Hlt. unfold newLOfd_table.
  rewrite (newLOfd_from_found MAX_LOBJ_FDS 0 (length pre)).
  - f_equal. rewrite insert_app_r_alt by (by rewrite length_fmap).
    rewrite length_fmap, Nat.sub_diag, length_app. cbn [length].
    replace (MAX_LOBJ_FDS - length pre)%nat
      with (S (MAX_LOBJ_FDS - (length pre + 1))) by lia.
    cbn [replicate]. rewrite fmap_app, <- app_assoc. done.
  - lia.
  - rewrite cookie_at_filled. apply lookup_ge_None_2. lia.
  - intros k Hk. rewrite cookie_at_filled.
    destruct (lookup_lt_is_Some_2 pre k) as [x Hx]; [lia|]. by rewrite Hx.
Qed.

Lemma newLOfd_all_filled ds : forall pre : list LargeObjectDesc,
  (length pre + length ds <= MAX_LOBJ_FDS)%nat ->
  newLOfd_all ds ((Some <$> pre) ++ replicate (MAX_LOBJ_FDS - length pre) None) =
    ((Some <$> (pre ++ ds)) ++ replicate (MAX_LOBJ_FDS - length (pre ++ ds)) None,
     Z.of_nat <$> seq (length pre) (length ds)).
Proof.
  induction ds as [|d ds IH]; intros pre Hlen.
  - cbn. by rewrite app_nil_r.
  - cbn [length] in Hlen. cbn [newLOfd_all].
    rewrite newLOfd_table_filled by lia.
    rewrite IH by (rewrite length_app; cbn; lia).
    rewrite <- app_assoc. cbn [app length seq fmap list_fmap].
    rewrite !length_app. cbn [length].
    by replace (length pre + 1)%nat with (S (length pre)) by lia.
Qed.

(** X16: on an empty table the descriptors come out in order: the
    first [newLOfd] returns 0, the next 1, and so on, each call filling
    the slot of its number, for as many as 256 calls in a row; after
    256 the table is full and [newLOfd] returns -1. *)
Theorem newLOfd_in_order (ds : list LargeObjectDesc) :
  (length ds <= MAX_LOBJ_FDS)%nat ->
  newLOfd_all ds (replicate MAX_LOBJ_FDS None) =
    ((Some <$> ds) ++ replicate (MAX_LOBJ_FDS - length ds) None,
     Z.of_nat <$> seq 0 (length ds)) /\
  (length ds = MAX_LOBJ_FDS ->
   forall d, newLOfd_table d (newLOfd_all ds (replicate MAX_LOBJ_FDS None)).1
             = (Some <$> ds, -1)).
Proof.
  intros Hlen.
  assert (Hall : newLOfd_all ds (replicate MAX_LOBJ_FDS None) =
            ((Some <$> ds) ++ replicate (MAX_LOBJ_FDS - length ds) None,
             Z.of_nat <$> seq 0 (length ds))).
  { pose proof (newLOfd_all_filled ds [] Hlen) as Hfill.
    cbn [length fmap list_fmap app] in Hfill. by rewrite Nat.sub_0_r in Hfill. }
  split; [done|]. intros Hfull d. rewrite Hall. cbn [fst].
  rewrite Hfull, Nat.sub_diag. cbn [replicate]. rewrite app_nil_r.
  unfold newLOfd_table. apply newLOfd_from_full.
  intros k Hk. pose proof (cookie_at_filled ds 0 k) as Hat.
  cbn [replicate] in Hat. rewrite app_nil_r in Hat. rewrite Hat.
  destruct (lookup_lt_is_Some_2 ds k) as [x Hx]; [lia|]. by rewrite Hx.
Qed.

(** ** The file name buffer *)

Lemma c_string_no_NUL (buf : list Byte.byte) : Byte.x00 ∉ c_string buf.
Proof.
  induction buf as [|b buf IH]; cbn; [apply not_elem_of_nil|].
  destruct (Byte.eqb b Byte.x00) eqn:E; [apply not_elem_of_nil|].
  apply not_elem_of_cons. split; [|done].
  intros <-. by rewrite (Byte.byte_dec_lb (x:=Byte.x00) (y:=Byte.x00) eq_refl) in E.
Qed.

Lemma c_string_cut (a rest : list Byte.byte) :
  Byte.x00 ∉ a -> c_string (a ++ Byte.x00 :: rest) = a.
Proof.
  induction a as [|b a IH]; intros Hnul; [done|].
  apply not_elem_of_cons in Hnul as [Hb Hl]. cbn.
  destruct (Byte.eqb b Byte.x00) eqn:E.
  - by apply Byte.byte_dec_bl in E.
  - by rewrite IH.
Qed.

Lemma c_string_length (l : list Byte.byte) :
  (length (c_string (l ++ [Byte.x00])) <= length l)%nat.
Proof.
  induction l as [|b l IH]; cbn; [done|].
  destruct (Byte.eqb b Byte.x00); cbn; lia.
Qed.

(** X17: the bytes [lo_import] and [lo_export] put in [fnamebuf], the
    terminator included, never exceed its 8192 bytes, whatever the
    length of the path.  The name read back from it has no NUL byte
    and at most 8191 bytes; a path with a NUL byte among its first
    8192 bytes names the file spelled by the bytes before that NUL. *)
Theorem fnamebuf_bounds {W : Type} `{Environment W} (filename : varlena) :
  (0 <= fname_nbytes filename <= FNAME_BUFSIZE - 1) /\
  Z.of_nat (length (fill_fnamebuf filename)) = fname_nbytes filename + 1 /\
  Z.of_nat (length (fill_fnamebuf filename)) <= FNAME_BUFSIZE /\
  (Byte.x00 ∉ c_string (fill_fnamebuf filename)) /\
  Z.of_nat (length (c_string (fill_fnamebuf filename))) <= FNAME_BUFSIZE - 1 /\
  (forall a b : list Byte.byte,
     filename = a ++ Byte.x00 :: b ->
     Byte.x00 ∉ a ->
     Z.of_nat (length a) <= FNAME_BUFSIZE - 1 ->
     c_string (fill_fnamebuf filename) = a).
Proof.
  pose proof (fname_nbytes_min filename) as Hn.
  assert (Hrange : 0 <= fname_nbytes filename <= FNAME_BUFSIZE - 1).
  { rewrite Hn. unfold FNAME_BUFSIZE. lia. }
  assert (Hlen : Z.of_nat (length (fill_fnamebuf filename)) = fname_nbytes filename + 1).
  { unfold fill_fnamebuf. rewrite length_app, length_take. cbn [length].
    rewrite Hn. unfold FNAME_BUFSIZE. lia. }
  split; [done|]. split; [done|]. split; [lia|].
  split; [apply c_string_no_NUL|]. split.
  - rewrite fill_fnamebuf_take.
    pose proof (c_string_length (take (Z.to_nat (FNAME_BUFSIZE - 1)) filename)) as Hc.
    rewrite length_take in Hc. lia.
  - intros a b -> Ha Hla. rewrite fill_fnamebuf_take.
    rewrite take_app, (take_ge a) by lia.
    rewrite <- app_assoc.
    destruct (Z.to_nat (FNAME_BUFSIZE - 1) - length a)%nat; cbn [take app];
      by apply c_string_cut.
Qed.

(** ** A read that fails *)

(** X18: both copy loops stop at the first read that returns a count
    that is not positive, and return normally: a negative count, as
    [FileRead] and [inv_read] give on an error, ends the copy without
    an error like the end of the data does, and nothing more is read or
    written. *)
Theorem copy_stops_at_failed_read {W : Type} `{Environment W}
    (fuel : nat) (fd : File) (lobj : LargeObjectDesc) (fnamebuf : list Byte.byte)
    (s : Backend W) :
  ((FileRead fd (Z.of_nat BUFSIZE) (world s)).1.1 <= 0 ->
   lo_import_copy (S fuel) fd lobj fnamebuf s =
     (Returned tt,
      record (FileRead_call fd (Z.of_nat BUFSIZE)
                (FileRead fd (Z.of_nat BUFSIZE) (world s)).1.1)
        s (FileRead fd (Z.of_nat BUFSIZE) (world s)).2)) /\
  ((inv_read lobj (Z.of_nat BUFSIZE) (world s)).1.1 <= 0 ->
   lo_export_copy (S fuel) fd lobj fnamebuf s =
     (Returned tt,
      record (inv_read_call lobj (Z.of_nat BUFSIZE)
                (inv_read lobj (Z.of_nat BUFSIZE) (world s)).1.1)
        s (inv_read lobj (Z.of_nat BUFSIZE) (world s)).2)).
Proof.
  split; intros Hn.
  - rewrite lo_import_copy_S. cbn zeta. rewrite Z.gtb_ltb.
    by destruct (Z.ltb_spec 0 (FileRead fd (Z.of_nat BUFSIZE) (world s)).1.1); [lia|].
  - rewrite lo_export_copy_S. cbn zeta. rewrite Z.gtb_ltb.
    by destruct (Z.ltb_spec 0 (inv_read lobj (Z.of_nat BUFSIZE) (world s)).1.1); [lia|].
Qed.

(** ** The further theorems on concrete states *)

Lemma sim_bytes_eqb_refl (a : list Byte.byte) : Sim.bytes_eqb a a = true.
Proof.
  induction a as [|x a IH]; [done|]. cbn. rewrite IH, andb_true_r.
  by apply Byte.byte_dec_lb.
Qed.

Lemma sim_file_get_put path content fs :
  Sim.file_get path (Sim.file_put path content fs) = Some content.
Proof.
  induction fs as [|[p c] fs IH]; cbn.
  - by rewrite sim_bytes_eqb_refl.
  - destruct (Sim.bytes_eqb p path) eqn:E; cbn; by rewrite E.
Qed.

Lemma sim_inv_read_chunk fd lobj w l :
  Sim.unread_obj fd lobj w l ->
  (inv_read lobj (Z.of_nat BUFSIZE) w).1 =
    (Z.of_nat (length (take BUFSIZE l)), take BUFSIZE l) /\
  Sim.unread_obj fd lobj (inv_read lobj (Z.of_nat BUFSIZE) w).2 (drop BUFSIZE l).
Proof.
  intros (oid & opos & ocontent & path & pos & content & Hd & Ho & -> & Hfd & Hfile).
  cbn [inv_read Sim.env]. unfold Sim.sim_inv_read, Sim.object_of.
  rewrite Hd, Ho, Nat2Z.id. cbn [fst snd]. split; [done|].
  exists oid, (opos + length (take BUFSIZE (drop opos ocontent)))%nat, ocontent, path, pos,
    content.
  cbn. rewrite lookup_insert_eq. repeat split; try done.
  rewrite drop_drop, length_take, length_drop.
  destruct (decide (1024 <= length ocontent - opos)%nat).
  - by rewrite Nat.min_l.
  - rewrite Nat.min_r by lia. rewrite !drop_ge; [done | lia | lia].
Qed.

Lemma sim_FileWrite_full fd lobj w l (chunk : list Byte.byte) :
  Sim.unread_obj fd lobj w l ->
  Z.of_nat (length chunk) <= (FileWrite fd chunk (Z.of_nat (length chunk)) w).1 /\
  Sim.unread_obj fd lobj (FileWrite fd chunk (Z.of_nat (length chunk)) w).2 l.
Proof.
  intros (oid & opos & ocontent & path & pos & content & Hd & Ho & -> & Hfd & Hfile).
  cbn [FileWrite Sim.env]. unfold Sim.sim_FileWrite, Sim.file_of.
  rewrite Hfd, Hfile, Nat2Z.id, firstn_all. cbn [fst snd]. split; [lia|].
  exists oid, opos, ocontent, path, (pos + length chunk)%nat,
    (Sim.store_at pos chunk content).
  cbn. rewrite lookup_insert_eq, sim_file_get_put. by repeat split.
Qed.

Lemma exporting_unread :
  Sim.unread_obj 101 100%nat (world Examples.exporting) (replicate 2500 Byte.x42).
Proof.
  exists 9, 0%nat, (replicate 2500 Byte.x42), Examples.path_b, 0%nat, [].
  repeat split; by vm_compute.
Qed.

Lemma exporting_fuel : (length (chunks BUFSIZE (replicate 2500 Byte.x42)) < 4)%nat.
Proof. vm_compute. lia. Qed.

Lemma lo_export_copy_chunks_witness :
  (lo_export_copy 4 101 100%nat (fill_fnamebuf Examples.path_b) Examples.exporting).1
    = Returned tt /\
  concat (file_written 101
            (calls_since Examples.exporting
               (lo_export_copy 4 101 100%nat (fill_fnamebuf Examples.path_b)
                  Examples.exporting).2))
    = replicate 2500 Byte.x42.
Proof.
  destruct (lo_export_copy_chunks 101 100%nat (fill_fnamebuf Examples.path_b)
              (Sim.unread_obj 101 100%nat)
              (sim_inv_read_chunk 101 100%nat) (sim_FileWrite_full 101 100%nat)
              Examples.exporting (replicate 2500 Byte.x42) 4%nat
              exporting_unread exporting_fuel)
    as (Hret & Hconcat & _).
  split; [exact Hret | exact Hconcat].
Defined.

Lemma two_open_lookup_0 : lookup_fd Examples.two_open 0 = Some 101%nat.
Proof. by vm_compute. Qed.


Lemma stream_ops_forward_witness :
  lo_tell 0 Examples.two_open =
    (let '(r, w) := inv_tell 101%nat (world Examples.two_open) in
     (Returned r,
      mkBackend (cookies Examples.two_open) (fscxt Examples.two_open)
        (CurrentMemoryContext Examples.two_open) w
        (calls Examples.two_open ++
           [(CurrentMemoryContext Examples.two_open, inv_tell_call 101%nat r)]))).
Proof.
  destruct (stream_ops_forward Examples.two_open 0 101%nat two_open_lookup_0)
    as (_ & _ & _ & Htell).
  exact Htell.
Defined.

Lemma fresh_wf_table : wf_table (cookies Examples.fresh).
Proof. by vm_compute. Qed.

Lemma fresh_lo_open : (lo_open 7 0 Examples.fresh).1 = Returned 0.
Proof. by vm_compute. Qed.

Lemma lo_open_registers_witness :
  exists d, lookup_fd (lo_open 7 0 Examples.fresh).2 0 = Some d.
Proof.
  destruct (lo_open_registers Examples.fresh 7 0 0 fresh_wf_table fresh_lo_open)
    as (d & _ & _ & _ & _ & Hd & _); [lia|].
  exists d. exact Hd.
Defined.

Lemma lo_open_lo_close_witness :
  (lo_close 0 (lo_open 7 0 Examples.fresh).2).1 = Returned 0 /\
  cookies (lo_close 0 (lo_open 7 0 Examples.fresh).2).2 = cookies Examples.fresh.
Proof.
  destruct (lo_open_lo_close Examples.fresh 7 0 0 fresh_wf_table fresh_lo_open)
    as (d & _ & Hret & Htbl & _); [lia|].
  split; [exact Hret | exact Htbl].
Defined.

Lemma lo_unlink_keeps_descriptors_witness :
  (lo_read 0 2 (lo_unlink 7 Examples.two_open).2).1 =
    Returned (inv_read 101%nat 2 (inv_drop 7 (world Examples.two_open)).2).1.
Proof.
  destruct (lo_unlink_keeps_descriptors Examples.two_open 7) as (_ & _ & Hread).
  exact (proj1 (Hread 0 101%nat 2 two_open_lookup_0)).
Defined.

Lemma fresh_fscxt : fscxt Examples.fresh = None.
Proof. done. Qed.

Lemma fscxt_created_when_absent_witness :
  fscxt (lo_open 7 0 Examples.two_open).2 = Some 100%nat /\
  fscxt (lo_open 7 0 Examples.fresh).2 =
    Some (AllocSetContextCreate TopMemoryContext "Filesystem" (world Examples.fresh)).1.
Proof.
  destruct (fscxt_created_when_absent Examples.two_open 7 0) as [Hset _].
  destruct (fscxt_created_when_absent Examples.fresh 7 0) as [_ Habsent].
  split.
  - exact (proj1 (Hset 100%nat two_open_fscxt)).
  - exact (proj1 (Habsent fresh_fscxt)).
Defined.


Lemma newLOfd_in_order_witness :
  newLOfd_all [100; 101; 102]%nat (replicate MAX_LOBJ_FDS None) =
    ([Some 100; Some 101; Some 102]%nat ++ replicate (MAX_LOBJ_FDS - 3) None, [0; 1; 2]).
Proof.
  destruct (newLOfd_in_order [100; 101; 102]%nat) as [Hall _].
  - cbn [length]. unfold MAX_LOBJ_FDS. lia.
  - exact Hall.
Defined.

Lemma fnamebuf_bounds_witness :
  c_string (fill_fnamebuf [Byte.x2f; Byte.x61; Byte.x00; Byte.x62]) = [Byte.x2f; Byte.x61].
Proof.
  destruct (fnamebuf_bounds (W:=Sim.World) [Byte.x2f; Byte.x61; Byte.x00; Byte.x62])
    as (_ & _ & _ & _ & _ & Hcut).
  apply (Hcut [Byte.x2f; Byte.x61] [Byte.x62]).
  - reflexivity.
  - apply not_elem_of_cons. split; [discriminate|].
    apply not_elem_of_cons. split; [discriminate|]. apply not_elem_of_nil.
  - cbn [length]. unfold FNAME_BUFSIZE. lia.
Defined.

Lemma copy_stops_at_failed_read_witness :
  (Sim.sim_FileRead 999 (Z.of_nat BUFSIZE) (world Examples.fresh)).1.1 = -1 /\
  (lo_import_copy 1 999 100%nat [] Examples.fresh).1 = Returned tt.
Proof.
  destruct (copy_stops_at_failed_read 0 999 100%nat [] Examples.fresh) as [Him _].
  split; [by vm_compute|]. rewrite Him; [done|]. by vm_compute.
Defined.
